(** * Verification of [defenses.py]

    A shallow embedding of the three defenses of the module
    ([free_adv_train], [SmoothedModel], [NeuralCleanse]) and the proofs of the
    properties the specification states about them.

    Conventions of the embedding.
    - Tensor elements are exact rationals ([Q]): the arithmetic of the source
      is modelled without rounding, infinities or NaN.
    - A batch is the list of its rows (dimension 0); a row is the flattened
      list of its elements.
    - The classifier, the loss, the optimizers, the scheduler, [scipy]'s
      [norm.ppf] and [statsmodels]' [proportion_confint] are collaborators
      of the module: they are section variables.
    - torch's random generator is a stream of draws read through a cursor.
    - numpy's [int32] counters wrap around. *)

From Stdlib Require Import List ZArith QArith Qminmax Lia Permutation.
From stdpp Require Import base option list gmap.
From Equations Require Import Equations.
Import ListNotations.

Local Open Scope nat_scope.

(** ** Scalars *)

Module Scalar.

(** [torch.sign] on one element. *)
Definition sign (q : Q) : Q :=
  match (q ?= 0)%Q with
  | Lt => (-1)%Q
  | Eq => 0%Q
  | Gt => 1%Q
  end.

(** [torch.clamp(v, lo, hi)] on one element: [min(max(v, lo), hi)]. *)
Definition clamp (lo hi v : Q) : Q := Qmin (Qmax v lo) hi.

(** [lo <= v <= hi], as a proposition and as a test. *)
Definition within (lo hi v : Q) : Prop := (lo <= v)%Q /\ (v <= hi)%Q.

Definition withinb (lo hi v : Q) : bool := Qle_bool lo v && Qle_bool v hi.

Definition Qltb (a b : Q) : bool := negb (Qle_bool b a).

(** A numpy [int32] holding the integer [z]. *)
Definition wrap32 (z : Z) : Z := ((z + 2 ^ 31) mod 2 ^ 32 - 2 ^ 31)%Z.

Lemma clamp_within (lo hi v : Q) : (lo <= hi)%Q -> within lo hi (clamp lo hi v).
Proof.
  intros Hle. unfold within, clamp. split.
  - apply Q.min_glb; [apply Q.le_max_r | exact Hle].
  - apply Q.le_min_r.
Qed.


Lemma wrap32_small (z : Z) : (- 2 ^ 31 <= z < 2 ^ 31)%Z -> wrap32 z = z.
Proof.
  intros Hz. unfold wrap32. rewrite Z.mod_small; lia.
Qed.

Lemma wrap32_succ (z : Z) : wrap32 (wrap32 z + 1) = wrap32 (z + 1).
Proof.
  unfold wrap32.
  replace ((z + 2 ^ 31) mod 2 ^ 32 - 2 ^ 31 + 1 + 2 ^ 31)%Z
    with ((z + 2 ^ 31) mod 2 ^ 32 + 1)%Z by lia.
  replace (z + 1 + 2 ^ 31)%Z with ((z + 2 ^ 31) + 1)%Z by lia.
  rewrite Zplus_mod_idemp_l. reflexivity.
Qed.

End Scalar.

(** ** Splitting along dimension 0 *)

Module Split.

(** Consecutive chunks of [S b] rows, the last one possibly shorter. *)
Equations? chunks {A : Type} (b : nat) (l : list A) : list (list A)
  by wf (length l) lt :=
chunks b [] := [];
chunks b (a :: l) := (a :: firstn b l) :: chunks b (skipn b l).
Proof. rewrite length_skipn. lia. Qed.

(** [Tensor.split(split_size)] along dimension 0.  A tensor with no row
    gives one empty chunk; a zero [split_size] is refused unless the
    tensor has no row. *)
Definition torch_split {A : Type} (split_size : nat) (l : list A)
  : option (list (list A)) :=
  match l, split_size with
  | [], _ => Some [[]]
  | _ :: _, 0 => None
  | _ :: _, S b => Some (chunks b l)
  end.

(** [int(np.ceil(n / d))] for [d > 0]. *)
Definition ceil_div (n d : nat) : nat := (n + d - 1) / d.

Lemma chunks_concat {A : Type} (b : nat) (l : list A) :
  concat (chunks b l) = l.
Proof.
  funelim (chunks b l); simp chunks; [reflexivity|].
  cbn [concat]. rewrite H. cbn. now rewrite firstn_skipn.
Qed.

Lemma chunks_size {A : Type} (b : nat) (l : list A) :
  Forall (fun c => 0 < length c <= S b) (chunks b l).
Proof.
  funelim (chunks b l); simp chunks; constructor; [|assumption].
  cbn. rewrite length_firstn. lia.
Qed.

Lemma ceil_div_0 (b : nat) : ceil_div 0 (S b) = 0.
Proof. unfold ceil_div. apply Nat.div_small. lia. Qed.

Lemma ceil_div_step (n b : nat) :
  ceil_div (S n) (S b) = S (ceil_div (n - b) (S b)).
Proof.
  unfold ceil_div.
  destruct (Nat.le_gt_cases n b) as [Hle|Hgt].
  - replace (n - b) with 0 by lia.
    rewrite (Nat.div_small (0 + S b - 1)) by lia.
    symmetry. apply (Nat.div_unique _ _ 1 n); lia.
  - replace (S n + S b - 1) with ((n - b + S b - 1) + 1 * S b) by lia.
    rewrite Nat.div_add by lia. lia.
Qed.

Lemma chunks_length {A : Type} (b : nat) (l : list A) :
  length (chunks b l) = ceil_div (length l) (S b).
Proof.
  funelim (chunks b l); simp chunks.
  - cbn [length]. now rewrite ceil_div_0.
  - cbn [length]. rewrite H, length_skipn, ceil_div_step. reflexivity.
Qed.

Lemma torch_split_concat {A : Type} (bs : nat) (l : list A) (cs : list (list A)) :
  torch_split bs l = Some cs -> concat cs = l.
Proof.
  destruct l as [|a l], bs as [|b]; cbn; intros [= <-]; try reflexivity.
  apply chunks_concat.
Qed.

Lemma torch_split_pos {A : Type} (bs : nat) (l : list A) :
  0 < bs -> exists cs, torch_split bs l = Some cs.
Proof.
  destruct l as [|a l], bs as [|b]; cbn; intros Hbs; try lia; eauto.
Qed.

End Split.

(** ** Randomized smoothing: [class SmoothedModel] *)

Module SmoothedModel.
Import Scalar Split.

(** [SmoothedModel.ABSTAIN]. *)
Definition ABSTAIN : Z := (-1)%Z.

(** The [method] argument of [proportion_confint]. *)
Inductive ci_method : Type :=
| Normal | AgrestiCoull | Beta | Wilson | Jeffreys | BinomTest.

(** Computations that draw from torch's generator and may raise: the state
    is the number of draws consumed so far, [None] is an exception. *)
Definition M (A : Type) : Type := nat -> option (A * nat).

Definition ret {A : Type} (a : A) : M A := fun cur => Some (a, cur).

Definition bind {A B : Type} (m : M A) (k : A -> M B) : M B :=
  fun cur => match m cur with
             | Some (a, cur') => k a cur'
             | None => None
             end.

Definition lift {A : Type} (o : option A) : M A :=
  fun cur => match o with
             | Some a => Some (a, cur)
             | None => None
             end.

Notation "x <- m ;; k" := (bind m (fun x => k))
  (at level 100, m at next level, right associativity).

(** Index of the first maximum of a row ([torch.max(_, dim=1)] on one row,
    [np.argmax]); an empty row raises. *)
Fixpoint argmax_from {A : Type} (ltb : A -> A -> bool)
  (best : nat) (bv : A) (i : nat) (l : list A) : nat :=
  match l with
  | [] => best
  | v :: l' =>
      if ltb bv v then argmax_from ltb i v (S i) l'
      else argmax_from ltb best bv (S i) l'
  end.

Definition argmax {A : Type} (ltb : A -> A -> bool) (l : list A) : option nat :=
  match l with
  | [] => None
  | v :: l' => Some (argmax_from ltb 0 v 1 l')
  end.

(** [counts[pred] += 1] on an [int32] array; an index out of range raises. *)
Definition incr (counts : list Z) (pred : nat) : option (list Z) :=
  match counts !! pred with
  | Some v => Some (<[pred := wrap32 (v + 1)]> counts)
  | None => None
  end.

(** [for pred in preds: counts[pred] += 1]. *)
Fixpoint count_preds (counts : list Z) (preds : list nat) : option (list Z) :=
  match preds with
  | [] => Some counts
  | p :: ps =>
      match incr counts p with
      | Some counts' => count_preds counts' ps
      | None => None
      end
  end.

(** [sum] of an integer array. *)
Definition sumZ (l : list Z) : Z := fold_right Z.add 0%Z l.

Section WithModel.

(** [self.model]: a batch of inputs to one row of logits per input. *)
Variable model : list (list Q) -> list (list Q).
(** [self.sigma]. *)
Variable sigma : Q.
(** The standard normal draws of torch's generator, in the order drawn. *)
Variable gauss : nat -> Q.
(** [scipy.stats.norm.ppf]. *)
Variable norm_ppf : Q -> Q.
(** [proportion_confint(count, nobs, alpha, method)]. *)
Variable proportion_confint : Z -> Z -> Q -> ci_method -> Q * Q.

(** [torch.randn(n, *shape)] for a shape of [d] elements: row [i] holds the
    draws [cur + i*d .. cur + i*d + d - 1]. *)
Definition randn (n d : nat) : M (list (list Q)) :=
  fun cur =>
    Some (map (fun i => map (fun j => gauss (cur + i * d + j)) (seq 0 d)) (seq 0 n),
          cur + n * d).

(** [_, preds = torch.max(self.model(x + noise), dim=1)] for one chunk. *)
Definition classify (x : list Q) (noise : list (list Q)) : option (list nat) :=
  mapM (argmax Qltb) (model (map (zip_with Qplus x) noise)).

(** The loop over [noise_batches]. *)
Fixpoint count_batches (x : list Q) (counts : list Z)
  (noise_batches : list (list (list Q))) : option (list Z) :=
  match noise_batches with
  | [] => Some counts
  | noise :: rest =>
      match classify x noise with
      | Some preds =>
          match count_preds counts preds with
          | Some counts' => count_batches x counts' rest
          | None => None
          end
      | None => None
      end
  end.

(** [SmoothedModel._sample_under_noise].  [x] is the flattened input (the
    [squeeze(0)] of a 4-dimensional [x] leaves its elements unchanged). *)
Definition _sample_under_noise (x : list Q) (n batch_size : nat) : M (list Z) :=
  let sample_output := model [x] in
  let counts := repeat 0%Z (length (hd [] sample_output)) in
  noise <- randn n (length x) ;;
  let noise := map (map (fun z => (z * sigma)%Q)) noise in
  noise_batches <- lift (torch_split batch_size noise) ;;
  lift (count_batches x counts noise_batches).

(** [SmoothedModel.certify]. *)
Definition certify (x : list Q) (n0 n : nat) (alpha : Q) (batch_size : nat)
  : M (Z * Q) :=
  counts_0 <- _sample_under_noise x n0 batch_size ;;
  c <- lift (argmax Z.ltb counts_0) ;;
  counts <- _sample_under_noise x n batch_size ;;
  count_c <- lift (counts !! c) ;;
  let '(p_a, _) := proportion_confint count_c (Z.of_nat n) (2 * alpha)%Q Beta in
  if Qle_bool p_a (1 # 2) then ret (ABSTAIN, 0%Q)
  else
    let radius := (sigma * norm_ppf p_a)%Q in
    ret (Z.of_nat c, radius).

(** *** What a sampling round computes *)

(** The class predicted from one row of logits. *)
Definition pred_of_row (r : list Q) : nat := default 0 (argmax Qltb r).

(** The [n] noise rows drawn when the generator has consumed [cur] draws. *)
Definition noise_rows (n d cur : nat) : list (list Q) :=
  map (map (fun z => (z * sigma)%Q))
      (map (fun i => map (fun j => gauss (cur + i * d + j)) (seq 0 d)) (seq 0 n)).

(** The predictions of a sampling round, in the order they are counted. *)
Definition votes (x : list Q) (n batch_size cur : nat) : list nat :=
  concat (map (fun noise => map pred_of_row (model (map (zip_with Qplus x) noise)))
              (default [] (torch_split batch_size (noise_rows n (length x) cur)))).

(** The [int32] count vector of a list of predictions over [K] classes. *)
Definition tally_of (K : nat) (f : nat -> Z) : list Z :=
  map (fun k => wrap32 (f k)) (seq 0 K).

Definition tally (K : nat) (preds : list nat) : list Z :=
  tally_of K (fun k => Z.of_nat (count_occ Nat.eq_dec preds k)).

(** The decision of [certify] from the lower confidence bound. *)
Definition decide_radius (c : nat) (p_a : Q) : Z * Q :=
  if Qle_bool p_a (1 # 2) then (ABSTAIN, 0%Q)
  else (Z.of_nat c, (sigma * norm_ppf p_a)%Q).

End WithModel.

(** *** Counting *)

Lemma argmax_from_lt {A : Type} (ltb : A -> A -> bool) (l : list A) :
  forall best bv i, best < i -> argmax_from ltb best bv i l < i + length l.
Proof.
  induction l as [|v l IH]; intros best bv i Hlt; cbn.
  - lia.
  - destruct (ltb bv v).
    + specialize (IH i v (S i)). lia.
    + specialize (IH best bv (S i)). lia.
Qed.

Lemma argmax_lt {A : Type} (ltb : A -> A -> bool) (l : list A) (i : nat) :
  argmax ltb l = Some i -> i < length l.
Proof.
  destruct l as [|v l]; cbn; [discriminate|].
  intros [= <-]. pose proof (argmax_from_lt ltb l 0 v 1). lia.
Qed.

Lemma argmax_is_Some {A : Type} (ltb : A -> A -> bool) (l : list A) :
  0 < length l -> exists i, argmax ltb l = Some i.
Proof.
  destruct l as [|v l]; cbn; [lia | eauto].
Qed.

Lemma tally_of_length (K : nat) (f : nat -> Z) : length (tally_of K f) = K.
Proof. unfold tally_of. now rewrite length_map, length_seq. Qed.

Lemma tally_of_lookup (K : nat) (f : nat -> Z) (k : nat) :
  k < K -> tally_of K f !! k = Some (wrap32 (f k)).
Proof.
  intros Hk. unfold tally_of.
  change (map ?g ?l) with (g <$> l).
  now rewrite list_lookup_fmap, lookup_seq_lt.
Qed.

Lemma tally_of_ext (K : nat) (f g : nat -> Z) :
  (forall k, k < K -> f k = g k) -> tally_of K f = tally_of K g.
Proof.
  intros Hfg. unfold tally_of. apply map_ext_in.
  intros k Hk. apply in_seq in Hk. rewrite Hfg; [reflexivity | lia].
Qed.

Lemma tally_of_zero (K : nat) : repeat 0%Z K = tally_of K (fun _ => 0%Z).
Proof.
  unfold tally_of.
  assert (Hs : forall s, repeat 0%Z K = map (fun _ => wrap32 0) (seq s K)).
  { induction K as [|K IH]; intros s; cbn; [reflexivity|]. now rewrite <- IH. }
  apply Hs.
Qed.

Lemma incr_tally_of (K : nat) (f : nat -> Z) (p : nat) :
  p < K ->
  incr (tally_of K f) p
  = Some (tally_of K (fun k => (f k + if Nat.eqb k p then 1 else 0)%Z)).
Proof.
  intros Hp. unfold incr. rewrite tally_of_lookup by exact Hp.
  f_equal. apply list_eq. intros i.
  destruct (decide (i < K)) as [Hi|Hi].
  - rewrite (tally_of_lookup _ _ _ Hi).
    destruct (decide (p = i)) as [->|Hne].
    + rewrite list_lookup_insert_eq by (now rewrite tally_of_length).
      rewrite Nat.eqb_refl. now rewrite wrap32_succ.
    + rewrite list_lookup_insert_ne by exact Hne.
      rewrite (tally_of_lookup _ _ _ Hi).
      destruct (Nat.eqb_spec i p); [congruence|].
      now rewrite Z.add_0_r.
  - rewrite !lookup_ge_None_2; [reflexivity | |].
    + rewrite tally_of_length. lia.
    + rewrite length_insert, tally_of_length. lia.
Qed.

Lemma count_preds_tally_of (K : nat) (preds : list nat) :
  forall f, Forall (fun p => p < K) preds ->
  count_preds (tally_of K f) preds
  = Some (tally_of K (fun k => (f k + Z.of_nat (count_occ Nat.eq_dec preds k))%Z)).
Proof.
  induction preds as [|p ps IH]; intros f Hall; cbn [count_preds].
  - f_equal. apply tally_of_ext. intros k _. cbn. lia.
  - inversion Hall as [|? ? Hp Hps]; subst.
    rewrite incr_tally_of by exact Hp. rewrite IH by exact Hps.
    f_equal. apply tally_of_ext. intros k _. cbn [count_occ].
    destruct (Nat.eq_dec p k) as [->|Hne].
    + rewrite Nat.eqb_refl. lia.
    + destruct (Nat.eqb_spec k p); [congruence | lia].
Qed.

Lemma count_occ_app_Z (l1 l2 : list nat) (k : nat) :
  Z.of_nat (count_occ Nat.eq_dec (l1 ++ l2) k)
  = (Z.of_nat (count_occ Nat.eq_dec l1 k) + Z.of_nat (count_occ Nat.eq_dec l2 k))%Z.
Proof. rewrite count_occ_app. lia. Qed.

Lemma sumZ_cons (z : Z) (l : list Z) : sumZ (z :: l) = (z + sumZ l)%Z.
Proof. reflexivity. Qed.

Lemma sumZ_indicator (K p : nat) (s : nat) :
  sumZ (map (fun k => if Nat.eqb k p then 1%Z else 0%Z) (seq s K))
  = if decide (s <= p < s + K) then 1%Z else 0%Z.
Proof.
  revert s. induction K as [|K IH]; intros s; cbn [seq map].
  - destruct (decide _); [lia | reflexivity].
  - rewrite sumZ_cons, IH.
    destruct (Nat.eqb_spec s p); repeat destruct (decide _); lia.
Qed.

Lemma sumZ_map_add (f g : nat -> Z) (l : list nat) :
  sumZ (map (fun k => (f k + g k)%Z) l) = (sumZ (map f l) + sumZ (map g l))%Z.
Proof.
  induction l as [|k l IH]; cbn [map]; [reflexivity|].
  rewrite !sumZ_cons, IH. lia.
Qed.

(** The counts of distinct classes add up to the number of predictions. *)
Lemma sumZ_count_occ (K : nat) (preds : list nat) :
  Forall (fun p => p < K) preds ->
  sumZ (map (fun k => Z.of_nat (count_occ Nat.eq_dec preds k)) (seq 0 K))
  = Z.of_nat (length preds).
Proof.
  induction 1 as [|p ps Hp Hps IH].
  - cbn [count_occ length]. induction (seq 0 K); cbn [map]; rewrite ?sumZ_cons; [reflexivity | lia].
  - rewrite (map_ext _ (fun k => ((if Nat.eqb k p then 1 else 0)
                                  + Z.of_nat (count_occ Nat.eq_dec ps k))%Z)).
    + rewrite (sumZ_map_add (fun k => if Nat.eqb k p then 1%Z else 0%Z)
                 (fun k => Z.of_nat (count_occ Nat.eq_dec ps k))).
      rewrite sumZ_indicator, IH.
      destruct (decide _); cbn [length]; lia.
    + intros k. cbn [count_occ].
      destruct (Nat.eq_dec p k) as [->|Hne].
      * rewrite Nat.eqb_refl. lia.
      * destruct (Nat.eqb_spec k p); [congruence | lia].
Qed.

Lemma count_occ_le_length (preds : list nat) (k : nat) :
  count_occ Nat.eq_dec preds k <= length preds.
Proof.
  induction preds as [|p ps IH]; cbn; [lia|].
  destruct (Nat.eq_dec p k); lia.
Qed.

(** Below [2^31] predictions no counter wraps. *)
Lemma tally_exact (K : nat) (preds : list nat) :
  (Z.of_nat (length preds) < 2 ^ 31)%Z ->
  tally K preds = map (fun k => Z.of_nat (count_occ Nat.eq_dec preds k)) (seq 0 K).
Proof.
  intros Hn. unfold tally, tally_of. apply map_ext. intros k.
  apply wrap32_small. pose proof (count_occ_le_length preds k). lia.
Qed.

(** *** A sampling round, for a classifier with [num_classes] logits per row *)

Section SamplingRound.

Variable model : list (list Q) -> list (list Q).
Variable sigma : Q.
Variable gauss : nat -> Q.
Variable num_classes : nat.

Hypothesis num_classes_pos : 0 < num_classes.
Hypothesis model_rows : forall b, length (model b) = length b.
Hypothesis model_cols : forall b, Forall (fun r => length r = num_classes) (model b).

Lemma pred_of_row_lt (r : list Q) :
  length r = num_classes -> argmax Qltb r = Some (pred_of_row r) /\ pred_of_row r < num_classes.
Proof.
  intros Hr. unfold pred_of_row.
  destruct (argmax_is_Some Qltb r) as [i Hi]; [lia|].
  rewrite Hi. cbn. split; [reflexivity|].
  apply argmax_lt in Hi. lia.
Qed.

Lemma mapM_argmax (rows : list (list Q)) :
  Forall (fun r => length r = num_classes) rows ->
  mapM (argmax Qltb) rows = Some (map pred_of_row rows)
  /\ Forall (fun p => p < num_classes) (map pred_of_row rows).
Proof.
  induction 1 as [|r rows Hr Hrows [IH1 IH2]]; cbn.
  - split; [reflexivity | constructor].
  - destruct (pred_of_row_lt r Hr) as [Ha Hlt].
    rewrite Ha. cbn. rewrite IH1. cbn. split; [reflexivity|].
    constructor; assumption.
Qed.

Lemma classify_votes (x : list Q) (noise : list (list Q)) :
  classify model x noise
  = Some (map pred_of_row (model (map (zip_with Qplus x) noise))).
Proof. unfold classify. apply mapM_argmax, model_cols. Qed.

Lemma count_batches_tally (x : list Q) (noise_batches : list (list (list Q))) :
  forall f,
  count_batches model x (tally_of num_classes f) noise_batches
  = Some (tally_of num_classes (fun k =>
      (f k + Z.of_nat (count_occ Nat.eq_dec
         (concat (map (fun noise => map pred_of_row (model (map (zip_with Qplus x) noise)))
                      noise_batches)) k))%Z)).
Proof.
  induction noise_batches as [|noise rest IH]; intros f; cbn [count_batches map concat].
  - f_equal. apply tally_of_ext. intros k _. cbn. lia.
  - rewrite classify_votes.
    rewrite count_preds_tally_of by (apply mapM_argmax, model_cols).
    rewrite IH. f_equal. apply tally_of_ext. intros k _.
    rewrite count_occ_app_Z. lia.
Qed.

Lemma sample_output_classes (x : list Q) :
  length (hd [] (model [x])) = num_classes.
Proof.
  pose proof (model_rows [x]) as Hlen. pose proof (model_cols [x]) as Hcols.
  destruct (model [x]) as [|r rs]; cbn in *; [discriminate|].
  now inversion Hcols.
Qed.

Lemma votes_lt (x : list Q) (n batch_size cur : nat) :
  Forall (fun p => p < num_classes) (votes model sigma gauss x n batch_size cur).
Proof.
  unfold votes. apply Forall_concat, Forall_forall.
  intros l Hl. apply list_elem_of_In, in_map_iff in Hl as (noise & <- & _).
  apply mapM_argmax, model_cols.
Qed.

Lemma votes_length (x : list Q) (n batch_size cur : nat) :
  0 < batch_size -> length (votes model sigma gauss x n batch_size cur) = n.
Proof.
  intros Hbs. unfold votes.
  destruct (torch_split_pos batch_size (noise_rows sigma gauss n (length x) cur) Hbs)
    as [cs Hcs].
  rewrite Hcs. change (default [] (Some cs)) with cs.
  apply torch_split_concat in Hcs.
  assert (Hn : length (concat cs) = n).
  { rewrite Hcs. unfold noise_rows. now rewrite !length_map, length_seq. }
  clear Hcs. revert n Hn.
  induction cs as [|c cs IH]; intros n Hn; cbn [map concat] in *.
  - exact Hn.
  - rewrite length_app in *. rewrite length_map, model_rows, length_map.
    rewrite (IH (length (concat cs)) eq_refl). exact Hn.
Qed.

(** One sampling round: the count vector is the tally of the round's
    predictions, and the generator has advanced by the [n] noise rows. *)
Lemma sample_round (x : list Q) (n batch_size cur : nat) :
  0 < batch_size ->
  _sample_under_noise model sigma gauss x n batch_size cur
  = Some (tally num_classes (votes model sigma gauss x n batch_size cur),
          cur + n * length x).
Proof.
  intros Hbs. unfold _sample_under_noise, bind, randn, lift, votes.
  fold (noise_rows sigma gauss n (length x) cur).
  destruct (torch_split_pos batch_size (noise_rows sigma gauss n (length x) cur) Hbs)
    as [cs Hcs].
  rewrite Hcs. change (default [] (Some cs)) with cs.
  rewrite sample_output_classes, tally_of_zero, count_batches_tally.
  reflexivity.
Qed.

Lemma tally_argmax (preds : list nat) :
  exists c, argmax Z.ltb (tally num_classes preds) = Some c /\ c < num_classes.
Proof.
  destruct (argmax_is_Some Z.ltb (tally num_classes preds)) as [c Hc].
  - unfold tally. rewrite tally_of_length. exact num_classes_pos.
  - exists c. split; [exact Hc|].
    apply argmax_lt in Hc. unfold tally in Hc. now rewrite tally_of_length in Hc.
Qed.

Variable norm_ppf : Q -> Q.
Variable proportion_confint : Z -> Z -> Q -> ci_method -> Q * Q.

(** [certify] unfolded along its two sampling rounds. *)
Lemma certify_run (x : list Q) (n0 n : nat) (alpha : Q) (batch_size cur : nat) :
  0 < batch_size ->
  let cur1 := cur + n0 * length x in
  let counts_0 := tally num_classes (votes model sigma gauss x n0 batch_size cur) in
  let counts := tally num_classes (votes model sigma gauss x n batch_size cur1) in
  exists c count_c,
    argmax Z.ltb counts_0 = Some c
    /\ counts !! c = Some count_c
    /\ count_c = wrap32 (Z.of_nat (count_occ Nat.eq_dec
                                     (votes model sigma gauss x n batch_size cur1) c))
    /\ certify model sigma gauss norm_ppf proportion_confint x n0 n alpha batch_size cur
       = Some (decide_radius sigma norm_ppf c
                 (fst (proportion_confint count_c (Z.of_nat n) (2 * alpha)%Q Beta)),
               cur1 + n * length x).
Proof.
  intros Hbs. cbv zeta.
  destruct (tally_argmax (votes model sigma gauss x n0 batch_size cur)) as (c & Hc & Hlt).
  exists c. eexists. split; [exact Hc|].
  split; [unfold tally; now apply tally_of_lookup|]. split; [reflexivity|].
  unfold certify, bind. rewrite sample_round by exact Hbs.
  rewrite Hc. cbn [lift].
  rewrite sample_round by exact Hbs.
  unfold tally. rewrite tally_of_lookup by exact Hlt. cbn [lift].
  unfold decide_radius, ret.
  destruct (proportion_confint _ _ _ _) as [p_a p_b]. cbn [fst].
  destruct (Qle_bool p_a (1 # 2)); reflexivity.
Qed.

End SamplingRound.

(** The draws of the generator that a round of [n] rows of [d] elements
    reads when [cur] draws have been consumed. *)
Definition draws_read (n d cur : nat) : list nat :=
  concat (map (fun i => map (fun j => cur + i * d + j) (seq 0 d)) (seq 0 n)).

Lemma noise_rows_draws (sigma : Q) (gauss : nat -> Q) (n d cur : nat) :
  concat (noise_rows sigma gauss n d cur)
  = map (fun k => (gauss k * sigma)%Q) (draws_read n d cur).
Proof.
  unfold noise_rows, draws_read. rewrite concat_map, !map_map.
  f_equal. apply map_ext. intros i. now rewrite !map_map.
Qed.

Lemma draws_read_range (n d cur k : nat) :
  In k (draws_read n d cur) -> cur <= k < cur + n * d.
Proof.
  unfold draws_read. rewrite in_concat. intros (l & Hl & Hk).
  apply in_map_iff in Hl as (i & <- & Hi). apply in_map_iff in Hk as (j & <- & Hj).
  apply in_seq in Hi, Hj. nia.
Qed.

(** *** Concrete collaborators, used to instantiate the statements *)

(** A classifier over two classes that always prefers class 0. *)
Definition always_first (batch : list (list Q)) : list (list Q) :=
  map (fun _ => [1%Q; 0%Q]) batch.

(** A generator whose draws are all zero. *)
Definition still (_ : nat) : Q := 0%Q.

(** A stand-in for [norm.ppf], positive above one half. *)
Definition ppf_affine (p : Q) : Q := (p - (1 # 2))%Q.

(** A stand-in for [proportion_confint]: the observed proportion, lowered by
    [alpha], and one. *)
Definition ci_shift (count nobs : Z) (alpha : Q) (_ : ci_method) : Q * Q :=
  ((count # Z.to_pos nobs) - alpha, 1)%Q.

Lemma always_first_rows (b : list (list Q)) : length (always_first b) = length b.
Proof. unfold always_first. apply length_map. Defined.

Lemma always_first_cols (b : list (list Q)) :
  Forall (fun r => length r = 2) (always_first b).
Proof.
  unfold always_first. induction b as [|r b IH]; cbn; constructor; auto.
Defined.

Lemma always_first_votes (sigma : Q) (gauss : nat -> Q) (x : list Q) (n bs cur : nat) :
  0 < bs -> votes always_first sigma gauss x n bs cur = repeat 0 n.
Proof.
  intros Hbs.
  rewrite <- (votes_length always_first sigma gauss
               always_first_rows x n bs cur Hbs) at 2.
  apply Forall_eq_repeat.
  unfold votes. apply Forall_concat, Forall_forall.
  intros l Hl. apply list_elem_of_In, in_map_iff in Hl as (noise & <- & _).
  unfold always_first. rewrite map_map.
  induction (map (zip_with Qplus x) noise); cbn; constructor; auto.
Qed.

(** *** The properties of the specification *)

(** C3 (as amended).  For a classifier with [num_classes > 0] logits per
    row, every [batch_size >= 1] and every [n < 2^31],
    [_sample_under_noise] returns a vector of [num_classes] non-negative
    counts that add up to [n], whatever the chunking. *)
Theorem sample_under_noise_counts_sum
  (model : list (list Q) -> list (list Q)) (sigma : Q) (gauss : nat -> Q)
  (num_classes : nat)
  (num_classes_pos : 0 < num_classes)
  (model_rows : forall b, length (model b) = length b)
  (model_cols : forall b, Forall (fun r => length r = num_classes) (model b))
  (x : list Q) (n batch_size cur : nat) :
  0 < batch_size ->
  (Z.of_nat n < 2 ^ 31)%Z ->
  exists counts,
    _sample_under_noise model sigma gauss x n batch_size cur
    = Some (counts, cur + n * length x)
    /\ length counts = num_classes
    /\ Forall (fun c => (0 <= c)%Z) counts
    /\ sumZ counts = Z.of_nat n.
Proof.
  intros Hbs Hn.
  pose proof (votes_length model sigma gauss model_rows
                x n batch_size cur Hbs) as Hlen.
  pose proof (votes_lt model sigma gauss num_classes num_classes_pos model_cols
                x n batch_size cur) as Hlt.
  exists (tally num_classes (votes model sigma gauss x n batch_size cur)).
  split; [now apply sample_round|].
  split; [unfold tally; apply tally_of_length|].
  rewrite tally_exact by (rewrite Hlen; exact Hn).
  split.
  - apply Forall_forall. intros c Hc.
    apply list_elem_of_In, in_map_iff in Hc as (k & <- & _). lia.
  - rewrite sumZ_count_occ by exact Hlt. now rewrite Hlen.
Qed.

Lemma sample_under_noise_counts_sum_witness :
  exists counts,
    _sample_under_noise always_first (1 # 4) still [0%Q; 0%Q] 5 2 0
    = Some (counts, 0 + 5 * length [0%Q; 0%Q])
    /\ length counts = 2
    /\ Forall (fun c => (0 <= c)%Z) counts
    /\ sumZ counts = Z.of_nat 5.
Proof.
  apply (sample_under_noise_counts_sum always_first (1 # 4) still 2).
  - lia.
  - exact always_first_rows.
  - exact always_first_cols.
  - lia.
  - reflexivity.
Defined.

(** C3 (as stated) fails once a counter passes [2^31 - 1]: with [n = 2^31]
    and a classifier that always predicts class 0 the vector returned is
    [[-2147483648; 0]]. *)
Lemma sample_under_noise_counts_wrap :
  fst <$> _sample_under_noise always_first (1 # 4) still [0%Q] (Z.to_nat (2 ^ 31)) 128 0
  = Some [(-2147483648)%Z; 0%Z]
  /\ ~ Forall (fun c => (0 <= c)%Z) [(-2147483648)%Z; 0%Z]
  /\ sumZ [(-2147483648)%Z; 0%Z] <> Z.of_nat (Z.to_nat (2 ^ 31)).
Proof.
  assert (Hn : Z.of_nat (Z.to_nat (2 ^ 31)) = 2147483648%Z)
    by (rewrite Z2Nat.id; [reflexivity | lia]).
  rewrite Hn. generalize dependent (Z.to_nat (2 ^ 31)). intros n Hn.
  split; [|split].
  - rewrite (sample_round always_first (1 # 4) still 2) by
      (try lia; auto using always_first_rows, always_first_cols).
    rewrite always_first_votes by lia.
    cbn [fmap option_fmap option_map fst]. f_equal.
    unfold tally, tally_of. cbn [seq map].
    rewrite count_occ_repeat_eq by reflexivity.
    rewrite count_occ_repeat_neq by discriminate.
    rewrite Hn. reflexivity.
  - intros H. inversion H; subst. lia.
  - cbn. lia.
Qed.



(** C7.  [certify] runs a second sampling round of [n] rows on the generator
    state left by the first round: its noise is made of draws that come
    after all those of the first round;
    it takes from the second count vector the entry of the class [c] selected
    in the first round, which counts the second round's predictions of [c];
    and the bound [p_a] that decides the result is the lower end of
    [proportion_confint(counts[c], n, alpha = 2 * alpha, method = 'beta')]. *)
Theorem certify_second_round_bound
  (model : list (list Q) -> list (list Q)) (sigma : Q) (gauss : nat -> Q)
  (norm_ppf : Q -> Q) (proportion_confint : Z -> Z -> Q -> ci_method -> Q * Q)
  (num_classes : nat)
  (num_classes_pos : 0 < num_classes)
  (model_rows : forall b, length (model b) = length b)
  (model_cols : forall b, Forall (fun r => length r = num_classes) (model b))
  (x : list Q) (n0 n : nat) (alpha : Q) (batch_size cur : nat) :
  0 < batch_size ->
  exists counts_0 cur1 c counts cur2 count_c,
    _sample_under_noise model sigma gauss x n0 batch_size cur = Some (counts_0, cur1)
    /\ argmax Z.ltb counts_0 = Some c
    /\ _sample_under_noise model sigma gauss x n batch_size cur1 = Some (counts, cur2)
    /\ concat (noise_rows sigma gauss n0 (length x) cur)
       = map (fun k => (gauss k * sigma)%Q) (draws_read n0 (length x) cur)
    /\ concat (noise_rows sigma gauss n (length x) cur1)
       = map (fun k => (gauss k * sigma)%Q) (draws_read n (length x) cur1)
    /\ (forall k k', In k (draws_read n0 (length x) cur) ->
                     In k' (draws_read n (length x) cur1) -> k < k')
    /\ length (votes model sigma gauss x n batch_size cur1) = n
    /\ counts !! c = Some count_c
    /\ count_c = wrap32 (Z.of_nat (count_occ Nat.eq_dec
                                     (votes model sigma gauss x n batch_size cur1) c))
    /\ certify model sigma gauss norm_ppf proportion_confint x n0 n alpha batch_size cur
       = Some (decide_radius sigma norm_ppf c
                 (fst (proportion_confint count_c (Z.of_nat n) (2 * alpha)%Q Beta)),
               cur2).
Proof.
  intros Hbs.
  destruct (certify_run model sigma gauss num_classes num_classes_pos model_rows
              model_cols norm_ppf proportion_confint x n0 n alpha batch_size cur Hbs)
    as (c & count_c & Hc & Hlook & Hcount & Hrun).
  set (cur1 := cur + n0 * length x) in *.
  exists (tally num_classes (votes model sigma gauss x n0 batch_size cur)), cur1, c,
    (tally num_classes (votes model sigma gauss x n batch_size cur1)),
    (cur1 + n * length x), count_c.
  split; [now apply sample_round|]. split; [exact Hc|].
  split; [now apply sample_round|].
  split; [apply noise_rows_draws|]. split; [apply noise_rows_draws|].
  split.
  { intros k k' Hk Hk'. apply draws_read_range in Hk, Hk'. subst cur1. lia. }
  split; [now apply votes_length|].
  split; [exact Hlook|]. split; [exact Hcount|].
  exact Hrun.
Qed.

Lemma certify_second_round_bound_witness :
  exists counts_0 cur1 c counts cur2 count_c,
    _sample_under_noise always_first (1 # 4) still [0%Q; 0%Q] 3 2 0 = Some (counts_0, cur1)
    /\ argmax Z.ltb counts_0 = Some c
    /\ _sample_under_noise always_first (1 # 4) still [0%Q; 0%Q] 5 2 cur1 = Some (counts, cur2)
    /\ concat (noise_rows (1 # 4) still 3 (length [0%Q; 0%Q]) 0)
       = map (fun k => (still k * (1 # 4))%Q) (draws_read 3 (length [0%Q; 0%Q]) 0)
    /\ concat (noise_rows (1 # 4) still 5 (length [0%Q; 0%Q]) cur1)
       = map (fun k => (still k * (1 # 4))%Q) (draws_read 5 (length [0%Q; 0%Q]) cur1)
    /\ (forall k k', In k (draws_read 3 (length [0%Q; 0%Q]) 0) ->
                     In k' (draws_read 5 (length [0%Q; 0%Q]) cur1) -> k < k')
    /\ length (votes always_first (1 # 4) still [0%Q; 0%Q] 5 2 cur1) = 5
    /\ counts !! c = Some count_c
    /\ count_c = wrap32 (Z.of_nat (count_occ Nat.eq_dec
                                     (votes always_first (1 # 4) still [0%Q; 0%Q] 5 2 cur1) c))
    /\ certify always_first (1 # 4) still ppf_affine ci_shift [0%Q; 0%Q] 3 5 (1 # 1000) 2 0
       = Some (decide_radius (1 # 4) ppf_affine c
                 (fst (ci_shift count_c (Z.of_nat 5) (2 * (1 # 1000))%Q Beta)),
               cur2).
Proof.
  apply (certify_second_round_bound always_first (1 # 4) still ppf_affine ci_shift 2).
  - lia.
  - exact always_first_rows.
  - exact always_first_cols.
  - lia.
Defined.

(** *** Further properties of the sampling rounds *)

(** [np.argmax]: the index returned holds a maximum of the array, and every
    entry before it is strictly smaller. *)
Lemma argmax_from_Z_spec (l : list Z) :
  forall (p : list Z) (best : nat) (bv : Z),
  p !! best = Some bv ->
  (forall j v, p !! j = Some v -> (v <= bv)%Z) ->
  (forall j v, j < best -> p !! j = Some v -> (v < bv)%Z) ->
  exists vc,
    (p ++ l) !! argmax_from Z.ltb best bv (length p) l = Some vc
    /\ (forall j v, (p ++ l) !! j = Some v -> (v <= vc)%Z)
    /\ (forall j v, j < argmax_from Z.ltb best bv (length p) l ->
                   (p ++ l) !! j = Some v -> (v < vc)%Z).
Proof.
  induction l as [|v l IH]; intros p best bv Hbest Hmax Hfirst.
  - rewrite app_nil_r. cbn [argmax_from]. eauto.
  - assert (Hlt : best < length p) by (apply lookup_lt_is_Some; eauto).
    cbn [argmax_from].
    replace (p ++ v :: l) with ((p ++ [v]) ++ l) by (now rewrite <- app_assoc).
    replace (S (length p)) with (length (p ++ [v])) by (rewrite length_app; cbn; lia).
    destruct (Z.ltb_spec bv v) as [Hbv|Hbv].
    + apply IH.
      * now apply list_lookup_middle.
      * intros j w Hj. apply lookup_app_Some in Hj as [Hj|[Hge Hj]].
        -- specialize (Hmax j w Hj). lia.
        -- apply list_lookup_singleton_Some in Hj as [_ <-]. lia.
      * intros j w Hj Hw. rewrite lookup_app_l in Hw by exact Hj.
        specialize (Hmax j w Hw). lia.
    + apply IH.
      * now apply lookup_app_l_Some.
      * intros j w Hj. apply lookup_app_Some in Hj as [Hj|[Hge Hj]].
        -- exact (Hmax j w Hj).
        -- apply list_lookup_singleton_Some in Hj as [_ <-]. exact Hbv.
      * intros j w Hj Hw. rewrite lookup_app_l in Hw by lia.
        exact (Hfirst j w Hj Hw).
Qed.

Lemma argmax_Z_spec (l : list Z) (c : nat) :
  argmax Z.ltb l = Some c ->
  exists vc,
    l !! c = Some vc
    /\ (forall j v, l !! j = Some v -> (v <= vc)%Z)
    /\ (forall j v, j < c -> l !! j = Some v -> (v < vc)%Z).
Proof.
  destruct l as [|v l]; cbn [argmax]; [discriminate|]. intros [= <-].
  apply (argmax_from_Z_spec l [v] 0 v).
  - reflexivity.
  - intros [|j] w Hw; cbn in Hw; [injection Hw as <-; lia | discriminate].
  - intros j w Hj. lia.
Qed.

Lemma argmax_Z_ties (l : list Z) (z : Z) :
  l <> [] ->
  (forall j v, l !! j = Some v -> v = z) ->
  argmax Z.ltb l = Some 0.
Proof.
  intros Hne Hall.
  destruct (argmax_is_Some Z.ltb l) as [c Hc]; [destruct l; cbn; [congruence | lia]|].
  destruct (argmax_Z_spec l c Hc) as (vc & Hvc & _ & Hfirst).
  destruct c as [|c]; [exact Hc|].
  destruct l as [|v l]; [congruence|].
  specialize (Hfirst 0 v ltac:(lia) eq_refl).
  rewrite (Hall 0 v eq_refl), (Hall (S c) vc Hvc) in Hfirst. lia.
Qed.

Lemma tally_lookup (K : nat) (preds : list nat) (j : nat) :
  j < K ->
  tally K preds !! j = Some (wrap32 (Z.of_nat (count_occ Nat.eq_dec preds j))).
Proof. intros Hj. unfold tally. now rewrite tally_of_lookup by exact Hj. Qed.

(** The tally of [n] votes for one class [k]: [n] at [k], zero elsewhere,
    and [np.argmax] finds [k]. *)
Lemma tally_unanimous_argmax (K k n : nat) :
  k < K -> 0 < n -> (Z.of_nat n < 2 ^ 31)%Z ->
  argmax Z.ltb (tally K (repeat k n)) = Some k.
Proof.
  intros Hk Hn Hsmall.
  destruct (argmax_is_Some Z.ltb (tally K (repeat k n))) as [c Hc].
  { unfold tally. rewrite tally_of_length. lia. }
  destruct (argmax_Z_spec _ c Hc) as (vc & Hvc & Hmax & _).
  assert (Hlt : c < K).
  { apply argmax_lt in Hc. unfold tally in Hc. now rewrite tally_of_length in Hc. }
  specialize (Hmax k _ (tally_lookup K (repeat k n) k Hk)).
  rewrite count_occ_repeat_eq in Hmax by reflexivity.
  rewrite wrap32_small in Hmax by lia.
  destruct (Nat.eq_dec c k) as [->|Hne]; [exact Hc|].
  rewrite tally_lookup in Hvc by exact Hlt.
  rewrite count_occ_repeat_neq in Hvc by congruence.
  rewrite wrap32_small in Hvc by (cbn; lia).
  injection Hvc as <-. lia.
Qed.

(** A classifier that gives every input the same row of logits. *)
Definition constant_model (row : list Q) (batch : list (list Q)) : list (list Q) :=
  map (fun _ => row) batch.

Lemma constant_model_rows (row : list Q) (b : list (list Q)) :
  length (constant_model row b) = length b.
Proof. unfold constant_model. apply length_map. Defined.

Lemma constant_model_cols (row : list Q) (b : list (list Q)) :
  Forall (fun r => length r = length row) (constant_model row b).
Proof.
  unfold constant_model. induction b as [|r b IH]; cbn; constructor; auto.
Defined.

Lemma constant_model_votes (row : list Q) (sigma : Q) (gauss : nat -> Q)
  (x : list Q) (n bs cur : nat) :
  0 < bs ->
  votes (constant_model row) sigma gauss x n bs cur = repeat (pred_of_row row) n.
Proof.
  intros Hbs.
  rewrite <- (votes_length (constant_model row) sigma gauss
               (constant_model_rows row) x n bs cur Hbs) at 2.
  apply Forall_eq_repeat.
  unfold votes. apply Forall_concat, Forall_forall.
  intros l Hl. apply list_elem_of_In, in_map_iff in Hl as (noise & <- & _).
  unfold constant_model. rewrite map_map.
  induction (map (zip_with Qplus x) noise); cbn; constructor; auto.
Qed.

(** A classifier that treats the rows of a batch one by one gives the same
    predictions whatever the chunking. *)
Lemma rowwise_votes (f : list Q -> list Q) (sigma : Q) (gauss : nat -> Q)
  (x : list Q) (n bs cur : nat) :
  0 < bs ->
  votes (map f) sigma gauss x n bs cur
  = map (fun noise => pred_of_row (f (zip_with Qplus x noise)))
        (noise_rows sigma gauss n (length x) cur).
Proof.
  intros Hbs. unfold votes.
  destruct (torch_split_pos bs (noise_rows sigma gauss n (length x) cur) Hbs)
    as [cs Hcs].
  rewrite Hcs. change (default [] (Some cs)) with cs.
  apply torch_split_concat in Hcs. rewrite <- Hcs.
  rewrite concat_map. f_equal. apply map_ext. intros noise.
  now rewrite !map_map.
Qed.

Section EdgeRounds.

Variable model : list (list Q) -> list (list Q).
Variable sigma : Q.
Variable gauss : nat -> Q.
Variable num_classes : nat.

Hypothesis num_classes_pos : 0 < num_classes.
Hypothesis model_rows : forall b, length (model b) = length b.
Hypothesis model_cols : forall b, Forall (fun r => length r = num_classes) (model b).

(** A round of no sample returns the zero vector, for every [batch_size]. *)
Lemma sample_no_noise (x : list Q) (batch_size cur : nat) :
  _sample_under_noise model sigma gauss x 0 batch_size cur
  = Some (repeat 0%Z num_classes, cur + 0 * length x).
Proof.
  unfold _sample_under_noise, bind, randn, lift. cbn [seq map].
  rewrite (sample_output_classes model num_classes model_rows model_cols).
  cbn [torch_split count_batches]. unfold classify. cbn [map].
  pose proof (model_rows []) as Hnil.
  destruct (model []) as [|r rs]; [|discriminate]. reflexivity.
Qed.

End EdgeRounds.

(** A round of at least one sample with [batch_size = 0] raises. *)
Lemma sample_zero_batch_size (model : list (list Q) -> list (list Q)) (sigma : Q)
  (gauss : nat -> Q) (x : list Q) (n cur : nat) :
  0 < n -> _sample_under_noise model sigma gauss x n 0 cur = None.
Proof.
  intros Hn. unfold _sample_under_noise, bind, randn, lift.
  destruct n as [|n]; [lia|]. reflexivity.
Qed.

(** X1.  The class that [certify] selects holds a largest entry of the first
    round's count vector, and every class before it has a strictly smaller
    entry: ties go to the smallest class index. *)
Theorem selected_class_has_most_votes
  (model : list (list Q) -> list (list Q)) (sigma : Q) (gauss : nat -> Q)
  (num_classes : nat)
  (num_classes_pos : 0 < num_classes)
  (model_rows : forall b, length (model b) = length b)
  (model_cols : forall b, Forall (fun r => length r = num_classes) (model b))
  (x : list Q) (n0 batch_size cur : nat) :
  0 < batch_size ->
  exists counts_0 cur1 c votes_c,
    _sample_under_noise model sigma gauss x n0 batch_size cur = Some (counts_0, cur1)
    /\ argmax Z.ltb counts_0 = Some c
    /\ counts_0 !! c = Some votes_c
    /\ (forall j v, counts_0 !! j = Some v -> (v <= votes_c)%Z)
    /\ (forall j v, j < c -> counts_0 !! j = Some v -> (v < votes_c)%Z).
Proof.
  intros Hbs.
  destruct (tally_argmax num_classes num_classes_pos
              (votes model sigma gauss x n0 batch_size cur)) as (c & Hc & _).
  destruct (argmax_Z_spec _ c Hc) as (vc & Hvc & Hmax & Hfirst).
  exists (tally num_classes (votes model sigma gauss x n0 batch_size cur)),
    (cur + n0 * length x), c, vc.
  split; [now apply sample_round|].
  split; [exact Hc|]. split; [exact Hvc|]. split; assumption.
Qed.

Lemma selected_class_has_most_votes_witness :
  exists counts_0 cur1 c votes_c,
    _sample_under_noise always_first (1 # 4) still [0%Q; 0%Q] 3 2 0 = Some (counts_0, cur1)
    /\ argmax Z.ltb counts_0 = Some c
    /\ counts_0 !! c = Some votes_c
    /\ (forall j v, counts_0 !! j = Some v -> (v <= votes_c)%Z)
    /\ (forall j v, j < c -> counts_0 !! j = Some v -> (v < votes_c)%Z).
Proof.
  apply (selected_class_has_most_votes always_first (1 # 4) still 2).
  - lia.
  - exact always_first_rows.
  - exact always_first_cols.
  - lia.
Defined.

(** X2.  For a classifier that treats the rows of a batch one by one, the
    count vector and the generator state that [_sample_under_noise] returns
    do not depend on [batch_size]. *)
Theorem counts_do_not_depend_on_chunking
  (f : list Q -> list Q) (sigma : Q) (gauss : nat -> Q) (num_classes : nat)
  (num_classes_pos : 0 < num_classes)
  (f_cols : forall r, length (f r) = num_classes)
  (x : list Q) (n batch_size batch_size' cur : nat) :
  0 < batch_size ->
  0 < batch_size' ->
  _sample_under_noise (map f) sigma gauss x n batch_size cur
  = _sample_under_noise (map f) sigma gauss x n batch_size' cur.
Proof.
  intros Hbs Hbs'.
  assert (Hrows : forall b : list (list Q), length (map f b) = length b)
    by (intros b; apply length_map).
  assert (Hcols : forall b : list (list Q),
             Forall (fun r => length r = num_classes) (map f b)).
  { intros b. apply List.Forall_forall. intros r Hr.
    apply in_map_iff in Hr as (r' & <- & _). apply f_cols. }
  rewrite !(sample_round (map f) sigma gauss num_classes num_classes_pos Hrows Hcols)
    by assumption.
  now rewrite !rowwise_votes by assumption.
Qed.

Lemma counts_do_not_depend_on_chunking_witness :
  _sample_under_noise (map (fun _ => [1%Q; 0%Q])) (1 # 4) still [0%Q; 0%Q] 5 2 0
  = _sample_under_noise (map (fun _ => [1%Q; 0%Q])) (1 # 4) still [0%Q; 0%Q] 5 3 0.
Proof.
  apply (counts_do_not_depend_on_chunking (fun _ => [1%Q; 0%Q]) (1 # 4) still 2).
  - lia.
  - reflexivity.
  - lia.
  - lia.
Defined.

(** X3.  [certify] returns either [ABSTAIN] or the index of one of the
    classifier's classes. *)
Theorem certify_class_in_range
  (model : list (list Q) -> list (list Q)) (sigma : Q) (gauss : nat -> Q)
  (norm_ppf : Q -> Q) (proportion_confint : Z -> Z -> Q -> ci_method -> Q * Q)
  (num_classes : nat)
  (num_classes_pos : 0 < num_classes)
  (model_rows : forall b, length (model b) = length b)
  (model_cols : forall b, Forall (fun r => length r = num_classes) (model b))
  (x : list Q) (n0 n : nat) (alpha : Q) (batch_size cur : nat) :
  0 < batch_size ->
  exists cls radius cur2,
    certify model sigma gauss norm_ppf proportion_confint x n0 n alpha batch_size cur
    = Some ((cls, radius), cur2)
    /\ (cls = ABSTAIN \/ (0 <= cls < Z.of_nat num_classes)%Z).
Proof.
  intros Hbs.
  destruct (certify_run model sigma gauss num_classes num_classes_pos model_rows
              model_cols norm_ppf proportion_confint x n0 n alpha batch_size cur Hbs)
    as (c & count_c & Hc & Hlook & _ & Hrun).
  assert (Hlt : c < num_classes).
  { apply lookup_lt_Some in Hlook. unfold tally in Hlook.
    now rewrite tally_of_length in Hlook. }
  rewrite Hrun. unfold decide_radius.
  destruct (Qle_bool _ _); eexists _, _, _; (split; [reflexivity|]); [left | right].
  - reflexivity.
  - lia.
Qed.

Lemma certify_class_in_range_witness :
  exists cls radius cur2,
    certify always_first (1 # 4) still ppf_affine ci_shift [0%Q; 0%Q] 3 5 (1 # 1000) 2 0
    = Some ((cls, radius), cur2)
    /\ (cls = ABSTAIN \/ (0 <= cls < Z.of_nat 2)%Z).
Proof.
  apply (certify_class_in_range always_first (1 # 4) still ppf_affine ci_shift 2).
  - lia.
  - exact always_first_rows.
  - exact always_first_cols.
  - lia.
Defined.

(** X4.  For a classifier that gives every input the same logits, with at
    least one and fewer than [2^31] samples in the first round and fewer than
    [2^31] in the second, [certify] selects the class of those logits, finds
    all [n] votes of the second round on it, and decides on
    [proportion_confint(n, n, 2 * alpha, 'beta')]. *)
Theorem certify_constant_classifier
  (row : list Q) (sigma : Q) (gauss : nat -> Q)
  (norm_ppf : Q -> Q) (proportion_confint : Z -> Z -> Q -> ci_method -> Q * Q)
  (x : list Q) (n0 n : nat) (alpha : Q) (batch_size cur : nat) :
  row <> [] ->
  0 < batch_size ->
  0 < n0 ->
  (Z.of_nat n0 < 2 ^ 31)%Z ->
  (Z.of_nat n < 2 ^ 31)%Z ->
  certify (constant_model row) sigma gauss norm_ppf proportion_confint
    x n0 n alpha batch_size cur
  = Some (decide_radius sigma norm_ppf (pred_of_row row)
            (fst (proportion_confint (Z.of_nat n) (Z.of_nat n) (2 * alpha)%Q Beta)),
          cur + n0 * length x + n * length x).
Proof.
  intros Hrow Hbs Hn0 Hsmall0 Hsmall.
  assert (Hpos : 0 < length row) by (destruct row; cbn; [congruence | lia]).
  destruct (certify_run (constant_model row) sigma gauss (length row) Hpos
              (constant_model_rows row) (constant_model_cols row)
              norm_ppf proportion_confint x n0 n alpha batch_size cur Hbs)
    as (c & count_c & Hc & _ & Hcount & Hrun).
  rewrite constant_model_votes in Hc, Hcount by exact Hbs.
  destruct (pred_of_row_lt (length row) Hpos row eq_refl) as [_ Hk].
  rewrite (tally_unanimous_argmax (length row) (pred_of_row row) n0 Hk Hn0 Hsmall0) in Hc.
  injection Hc as <-.
  rewrite count_occ_repeat_eq in Hcount by reflexivity.
  rewrite wrap32_small in Hcount by lia.
  rewrite Hrun, Hcount. reflexivity.
Qed.

Lemma certify_constant_classifier_witness :
  certify (constant_model [0%Q; 1%Q]) (1 # 4) still ppf_affine ci_shift
    [0%Q; 0%Q] 3 5 (1 # 1000) 2 0
  = Some (decide_radius (1 # 4) ppf_affine (pred_of_row [0%Q; 1%Q])
            (fst (ci_shift (Z.of_nat 5) (Z.of_nat 5) (2 * (1 # 1000))%Q Beta)),
          0 + 3 * length [0%Q; 0%Q] + 5 * length [0%Q; 0%Q]).
Proof.
  apply (certify_constant_classifier [0%Q; 1%Q] (1 # 4) still ppf_affine ci_shift).
  - discriminate.
  - lia.
  - lia.
  - reflexivity.
  - reflexivity.
Defined.

(** X5.  With [n0 = 0] the first round counts nothing, [np.argmax] of the
    zero vector is [0], and [certify] decides on the second round's votes
    for class [0]. *)
Theorem certify_without_first_round
  (model : list (list Q) -> list (list Q)) (sigma : Q) (gauss : nat -> Q)
  (norm_ppf : Q -> Q) (proportion_confint : Z -> Z -> Q -> ci_method -> Q * Q)
  (num_classes : nat)
  (num_classes_pos : 0 < num_classes)
  (model_rows : forall b, length (model b) = length b)
  (model_cols : forall b, Forall (fun r => length r = num_classes) (model b))
  (x : list Q) (n : nat) (alpha : Q) (batch_size cur : nat) :
  0 < batch_size ->
  exists counts cur2 count_0,
    _sample_under_noise model sigma gauss x n batch_size cur = Some (counts, cur2)
    /\ counts !! 0 = Some count_0
    /\ certify model sigma gauss norm_ppf proportion_confint x 0 n alpha batch_size cur
       = Some (decide_radius sigma norm_ppf 0
                 (fst (proportion_confint count_0 (Z.of_nat n) (2 * alpha)%Q Beta)),
               cur2).
Proof.
  intros Hbs.
  destruct (certify_run model sigma gauss num_classes num_classes_pos model_rows
              model_cols norm_ppf proportion_confint x 0 n alpha batch_size cur Hbs)
    as (c & count_c & Hc & Hlook & _ & Hrun).
  assert (Hzero : argmax Z.ltb
                    (tally num_classes (votes model sigma gauss x 0 batch_size cur))
                  = Some 0).
  { apply (argmax_Z_ties _ 0%Z).
    - intros Hnil. apply (f_equal length) in Hnil. unfold tally in Hnil.
      rewrite tally_of_length in Hnil. cbn in Hnil. lia.
    - intros j v Hv.
      pose proof (votes_length model sigma gauss model_rows x 0 batch_size cur Hbs)
        as Hlen.
      destruct (votes model sigma gauss x 0 batch_size cur); [|discriminate].
      assert (Hj : j < num_classes).
      { apply lookup_lt_Some in Hv. unfold tally in Hv.
        now rewrite tally_of_length in Hv. }
      rewrite tally_lookup in Hv by exact Hj. now injection Hv as <-. }
  rewrite Hzero in Hc. injection Hc as <-.
  replace (cur + 0 * length x) with cur in * by lia.
  exists (tally num_classes (votes model sigma gauss x n batch_size cur)),
    (cur + n * length x), count_c.
  split; [now apply sample_round|].
  split; [exact Hlook|]. exact Hrun.
Qed.

Lemma certify_without_first_round_witness :
  exists counts cur2 count_0,
    _sample_under_noise (constant_model [0%Q; 1%Q]) (1 # 4) still [0%Q; 0%Q] 5 2 0
    = Some (counts, cur2)
    /\ counts !! 0 = Some count_0
    /\ certify (constant_model [0%Q; 1%Q]) (1 # 4) still ppf_affine ci_shift
         [0%Q; 0%Q] 0 5 (1 # 1000) 2 0
       = Some (decide_radius (1 # 4) ppf_affine 0
                 (fst (ci_shift count_0 (Z.of_nat 5) (2 * (1 # 1000))%Q Beta)),
               cur2).
Proof.
  apply (certify_without_first_round (constant_model [0%Q; 1%Q]) (1 # 4) still
           ppf_affine ci_shift 2).
  - lia.
  - exact (constant_model_rows [0%Q; 1%Q]).
  - exact (constant_model_cols [0%Q; 1%Q]).
  - lia.
Defined.

(** X6.  With [batch_size = 0], [certify] raises exactly when a sample is
    asked for: [noise.split(0)] is refused unless there is no noise row. *)
Theorem certify_zero_batch_size
  (model : list (list Q) -> list (list Q)) (sigma : Q) (gauss : nat -> Q)
  (norm_ppf : Q -> Q) (proportion_confint : Z -> Z -> Q -> ci_method -> Q * Q)
  (num_classes : nat)
  (num_classes_pos : 0 < num_classes)
  (model_rows : forall b, length (model b) = length b)
  (model_cols : forall b, Forall (fun r => length r = num_classes) (model b))
  (x : list Q) (n0 n : nat) (alpha : Q) (cur : nat) :
  certify model sigma gauss norm_ppf proportion_confint x n0 n alpha 0 cur = None
  <-> 0 < n0 + n.
Proof.
  assert (Hzeros : exists c, argmax Z.ltb (repeat 0%Z num_classes) = Some c
                             /\ c < num_classes).
  { destruct (argmax_is_Some Z.ltb (repeat 0%Z num_classes)) as [c Hc].
    - rewrite repeat_length. exact num_classes_pos.
    - exists c. split; [exact Hc|]. apply argmax_lt in Hc.
      now rewrite repeat_length in Hc. }
  destruct Hzeros as (c & Hc & Hlt).
  unfold certify, bind.
  destruct n0 as [|n0].
  - rewrite (sample_no_noise model sigma gauss num_classes model_rows model_cols).
    rewrite Hc. cbn [lift].
    destruct n as [|n].
    + rewrite (sample_no_noise model sigma gauss num_classes model_rows model_cols).
      assert (Hlook : repeat 0%Z num_classes !! c = Some 0%Z).
      { rewrite tally_of_zero. now rewrite tally_of_lookup by exact Hlt. }
      rewrite Hlook. cbn [lift].
      destruct (proportion_confint _ _ _ _) as [p_a p_b].
      split; [|lia]. unfold ret. destruct (Qle_bool _ _); discriminate.
    + rewrite sample_zero_batch_size by lia. split; [lia | reflexivity].
  - rewrite sample_zero_batch_size by lia. split; [lia | reflexivity].
Qed.

Lemma certify_zero_batch_size_witness :
  certify always_first (1 # 4) still ppf_affine ci_shift [0%Q; 0%Q] 3 5 (1 # 1000) 0 0
  = None
  <-> 0 < 3 + 5.
Proof.
  apply (certify_zero_batch_size always_first (1 # 4) still ppf_affine ci_shift 2).
  - lia.
  - exact always_first_rows.
  - exact always_first_cols.
Defined.

End SmoothedModel.

(** ** Free adversarial training: [free_adv_train] *)

Module FreeAdvTrain.
Import Scalar Split.

(** What a run does, in order: the values of [delta] it reads and writes and
    the steps of the optimizer and of the scheduler. *)
Inductive event : Type :=
| DeltaRead (delta : list (list Q))
| OptimizerStep
| DeltaUpdate (delta : list (list Q))
| SchedulerStep.

(** Elementwise operations on batches. *)
Definition tmap (f : Q -> Q) (a : list (list Q)) : list (list Q) :=
  map (map f) a.

Definition tzip (f : Q -> Q -> Q) (a b : list (list Q)) : list (list Q) :=
  zip_with (zip_with f) a b.

(** The gradient that autograd sends back through
    [torch.clamp(inputs + delta[:b], 0, 1)]: it passes where the clamped
    value lies in [[0, 1]] and is zero elsewhere. *)
Definition through_clamp (g_adv pre : list (list Q)) : list (list Q) :=
  tzip (fun g v => if withinb 0 1 v then g else 0%Q) g_adv pre.

(** Accumulation of a gradient into the [.grad] of a leaf. *)
Definition accumulate (grad : option (list (list Q))) (g : list (list Q))
  : list (list Q) :=
  match grad with
  | None => g
  | Some acc => tzip Qplus acc g
  end.

Definition is_step (e : event) : bool :=
  match e with
  | OptimizerStep | SchedulerStep => true
  | _ => false
  end.

(** The optimizer and scheduler steps of a log, in order. *)
Definition steps_of (log : list event) : list event := List.filter is_step log.

(** [j] times: [k] optimizer steps, then one scheduler step. *)
Definition blocks (k j : nat) : list event :=
  concat (repeat (repeat OptimizerStep k ++ [SchedulerStep]) j).

Definition delta_within (eps : Q) (delta : list (list Q)) : Prop :=
  Forall (Forall (within (- eps) eps)) delta.

Definition event_within (eps : Q) (e : event) : Prop :=
  match e with
  | DeltaRead d | DeltaUpdate d => delta_within eps d
  | _ => True
  end.

Section WithTrainer.

(** The model's parameters together with the state of the optimizer and of
    the scheduler. *)
Variable T : Type.
Variable Label : Type.
(** Gradients of the loss with respect to the parameters. *)
Variable PGrad : Type.
(** [model(inputs_adv)] in training mode, [optimizer.zero_grad()] and
    [criterion(outputs, targets).backward()]: the trainer after the forward
    pass (the model's running statistics may move), the gradient with respect
    to the parameters and the gradient with respect to [inputs_adv]. *)
Variable backward : T -> list (list Q) -> list Label -> T * PGrad * list (list Q).
Variable optimizer_step : T -> PGrad -> T.
Variable lr_scheduler_step : T -> T.
(** The order in which the [k]-th pass over [loader_tr] visits the data
    ([shuffle=True]). *)
Variable shuffle : nat -> list (list Q * Label) -> list (list Q * Label).

Record state : Type := mkState {
  trainer : T;
  delta : list (list Q);
  log : list event
}.

(** The state of one batch: the training state and [inputs.grad]. *)
Definition batch_state : Type := state * option (list (list Q)).

(** One repetition of the inner loop (lines 52-72). *)
Definition inner_rep (eps : Q) (inputs : list (list Q)) (targets : list Label)
  (bs : batch_state) : batch_state :=
  let '(s, inputs_grad) := bs in
  let b := length inputs in
  let pre := tzip Qplus inputs (firstn b (delta s)) in
  let inputs_adv := tmap (clamp 0 1) pre in
  let '(t, pgrad, g_adv) := backward (trainer s) inputs_adv targets in
  let inputs_grad' := accumulate inputs_grad (through_clamp g_adv pre) in
  let trainer' := optimizer_step t pgrad in
  let delta_b :=
    tzip (fun d g => (d + eps * sign g)%Q) (firstn b (delta s)) inputs_grad' in
  let delta' := tmap (clamp (- eps) eps) (delta_b ++ skipn b (delta s)) in
  (mkState trainer' delta'
     (log s ++ [DeltaRead (delta s); OptimizerStep; DeltaUpdate delta']),
   Some inputs_grad').

(** The repetition as the specification words it: [delta] moves along the
    sign of the gradient of this repetition's loss with respect to
    [inputs_adv]. *)
Definition spec_inner_rep (eps : Q) (inputs : list (list Q)) (targets : list Label)
  (bs : batch_state) : batch_state :=
  let '(s, _) := bs in
  let b := length inputs in
  let pre := tzip Qplus inputs (firstn b (delta s)) in
  let inputs_adv := tmap (clamp 0 1) pre in
  let '(t, pgrad, g_adv) := backward (trainer s) inputs_adv targets in
  let trainer' := optimizer_step t pgrad in
  let delta_b :=
    tzip (fun d g => (d + eps * sign g)%Q) (firstn b (delta s)) g_adv in
  let delta' := tmap (clamp (- eps) eps) (delta_b ++ skipn b (delta s)) in
  (mkState trainer' delta'
     (log s ++ [DeltaRead (delta s); OptimizerStep; DeltaUpdate delta']),
   Some g_adv).

Section Loops.

(** The body of the inner loop. *)
Variable rep : Q -> list (list Q) -> list Label -> batch_state -> batch_state.

(** The body of the loop over [enumerate(loader_tr)] (lines 50-76). *)
Definition train_batch (eps : Q) (m scheduler_step_iters i : nat)
  (batch : list (list Q * Label)) (s : state) : state :=
  let inputs := map fst batch in
  let targets := map snd batch in
  let s' := fst (Nat.iter m (rep eps inputs targets) (s, None)) in
  if (i + 1) mod scheduler_step_iters =? 0
  then mkState (lr_scheduler_step (trainer s')) (delta s') (log s' ++ [SchedulerStep])
  else s'.

(** The loop over [enumerate(loader_tr)], from index [i]. *)
Fixpoint train_epoch (eps : Q) (m scheduler_step_iters i : nat)
  (batches : list (list (list Q * Label))) (s : state) : state :=
  match batches with
  | [] => s
  | batch :: rest =>
      train_epoch eps m scheduler_step_iters (S i) rest
        (train_batch eps m scheduler_step_iters i batch s)
  end.

(** [free_adv_train].  [DataLoader] refuses [batch_size = 0], and
    [next(iter(loader_tr))] raises on an empty dataset.  Pass [0] over the
    loader is the one of line 38; epoch [e] is pass [e + 1].  On a non-empty
    dataset [scheduler_step_iters] is positive, so the remainder of line 75
    is defined; [total_updates] (line 41) is never read. *)
Definition train_with (data_tr : list (list Q * Label)) (eps : Q)
  (m epochs batch_size : nat) (trainer0 : T) : option state :=
  match batch_size, data_tr with
  | 0, _ => None
  | _, [] => None
  | S b, _ :: _ =>
      let loader_tr := fun k => chunks b (shuffle k data_tr) in
      let first_inputs := map fst (hd [] (loader_tr 0)) in
      let delta0 := repeat (repeat 0%Q (length (hd [] first_inputs))) batch_size in
      let scheduler_step_iters := ceil_div (length data_tr) batch_size in
      Some (fold_left
              (fun s epoch =>
                 train_epoch eps m scheduler_step_iters 0 (loader_tr (S epoch)) s)
              (seq 0 epochs)
              (mkState trainer0 delta0 []))
  end.

End Loops.

Definition free_adv_train := train_with inner_rep.

Definition spec_free_adv_train := train_with spec_inner_rep.

End WithTrainer.

Arguments trainer {T}.
Arguments delta {T}.
Arguments log {T}.
Arguments mkState {T}.

(** *** Concrete collaborators, used to instantiate the statements *)

(** A trainer that only counts its optimizer steps; the loss grows with every
    element of [inputs_adv] before the first step (gradient 1) and falls with
    it afterwards (gradient -1). *)
Definition tilt (t : nat) (inputs_adv : list (list Q)) (_ : list nat)
  : nat * unit * list (list Q) :=
  (t, tt, tmap (fun _ => if t =? 0 then 1%Q else (-1)%Q) inputs_adv).

Definition count_step (t : nat) (_ : unit) : nat := S t.

Definition keep_rate (t : nat) : nat := t.

Definition in_order (_ : nat) (data : list (list Q * nat)) : list (list Q * nat) :=
  data.

Definition two_white_pixels : list (list Q * nat) := [([1%Q], 0); ([1%Q], 0)].

(** *** The perturbation stays within the bound *)

Lemma tmap_clamp_within (lo hi : Q) (a : list (list Q)) :
  (lo <= hi)%Q -> Forall (Forall (within lo hi)) (tmap (clamp lo hi) a).
Proof.
  intros Hle. unfold tmap.
  apply List.Forall_forall. intros r Hr. apply in_map_iff in Hr as (r' & <- & _).
  apply List.Forall_forall. intros v Hv. apply in_map_iff in Hv as (v' & <- & _).
  now apply clamp_within.
Qed.

Lemma zeros_within (eps : Q) (d n : nat) :
  (0 <= eps)%Q -> delta_within eps (repeat (repeat 0%Q d) n).
Proof.
  intros Heps. unfold delta_within.
  apply List.Forall_forall. intros r Hr. apply repeat_spec in Hr as ->.
  apply List.Forall_forall. intros v Hv. apply repeat_spec in Hv as ->.
  split; [|exact Heps].
  apply (Qopp_le_compat 0 eps) in Heps. exact Heps.
Qed.

Lemma neg_le_self (eps : Q) : (0 <= eps)%Q -> (- eps <= eps)%Q.
Proof.
  intros Heps. apply Qle_trans with 0%Q; [|exact Heps].
  apply (Qopp_le_compat 0 eps) in Heps. exact Heps.
Qed.

Section Invariant.

Variable T : Type.
Variable Label : Type.
Variable PGrad : Type.
Variable backward : T -> list (list Q) -> list Label -> T * PGrad * list (list Q).
Variable optimizer_step : T -> PGrad -> T.
Variable lr_scheduler_step : T -> T.
Variable shuffle : nat -> list (list Q * Label) -> list (list Q * Label).
Variable eps : Q.
Hypothesis eps_nonneg : (0 <= eps)%Q.

(** Every value of [delta] read or written so far, and the current one, lies
    within [[-eps, eps]]. *)
Definition bounded (s : state T) : Prop :=
  delta_within eps (delta s) /\ Forall (event_within eps) (log s).

Lemma inner_rep_bounded (inputs : list (list Q)) (targets : list Label)
  (bs : batch_state T) :
  bounded (fst bs) ->
  bounded (fst (inner_rep T Label PGrad backward optimizer_step eps inputs targets bs)).
Proof.
  destruct bs as [s ig]. intros [Hd Hl]. unfold inner_rep.
  destruct (backward _ _ _) as [[t pgrad] g_adv]. cbn [fst].
  assert (Hnew : forall a, delta_within eps (tmap (clamp (- eps) eps) a)).
  { intros a. apply tmap_clamp_within, neg_le_self, eps_nonneg. }
  split; cbn [delta log]; [apply Hnew|].
  apply Forall_app. split; [exact Hl|].
  repeat constructor; cbn; [exact Hd | apply Hnew].
Qed.

Lemma inner_loop_bounded (inputs : list (list Q)) (targets : list Label)
  (m : nat) (bs : batch_state T) :
  bounded (fst bs) ->
  bounded (fst (Nat.iter m
    (inner_rep T Label PGrad backward optimizer_step eps inputs targets) bs)).
Proof.
  intros Hb. induction m as [|m IH]; cbn [Nat.iter nat_rect]; [exact Hb|].
  now apply inner_rep_bounded.
Qed.

Lemma train_batch_bounded (m S_iters i : nat) (batch : list (list Q * Label))
  (s : state T) :
  bounded s ->
  bounded (train_batch T Label lr_scheduler_step
             (inner_rep T Label PGrad backward optimizer_step)
             eps m S_iters i batch s).
Proof.
  intros Hb. unfold train_batch.
  pose proof (inner_loop_bounded (map fst batch) (map snd batch) m (s, None) Hb)
    as [Hd Hl].
  destruct (_ =? 0); [|now split].
  split; cbn [delta log]; [exact Hd|].
  apply Forall_app. split; [exact Hl | repeat constructor].
Qed.

Lemma train_epoch_bounded (m S_iters : nat) (batches : list (list (list Q * Label))) :
  forall (i : nat) (s : state T),
  bounded s ->
  bounded (train_epoch T Label lr_scheduler_step
             (inner_rep T Label PGrad backward optimizer_step)
             eps m S_iters i batches s).
Proof.
  induction batches as [|batch rest IH]; intros i s Hb; cbn [train_epoch].
  - exact Hb.
  - apply IH. now apply train_batch_bounded.
Qed.

Lemma epochs_bounded (m S_iters : nat)
  (loader_tr : nat -> list (list (list Q * Label))) (epochs : list nat) :
  forall s : state T,
  bounded s ->
  bounded (fold_left
             (fun s epoch =>
                train_epoch T Label lr_scheduler_step
                  (inner_rep T Label PGrad backward optimizer_step)
                  eps m S_iters 0 (loader_tr (S epoch)) s)
             epochs s).
Proof.
  induction epochs as [|e es IH]; intros s Hb; cbn [fold_left].
  - exact Hb.
  - apply IH. now apply train_epoch_bounded.
Qed.

End Invariant.

(** C2.  A run of [free_adv_train] with [eps >= 0] on a non-empty dataset
    returns, and every value of [delta] it reads at the head of an inner
    iteration or writes by the perturbation update lies elementwise in
    [[-eps, eps]], as does the final one. *)
Theorem delta_stays_within_eps
  (T Label PGrad : Type)
  (backward : T -> list (list Q) -> list Label -> T * PGrad * list (list Q))
  (optimizer_step : T -> PGrad -> T) (lr_scheduler_step : T -> T)
  (shuffle : nat -> list (list Q * Label) -> list (list Q * Label))
  (data_tr : list (list Q * Label)) (eps : Q) (m epochs batch_size : nat)
  (trainer0 : T) :
  (0 <= eps)%Q ->
  0 < batch_size ->
  data_tr <> [] ->
  exists s,
    free_adv_train T Label PGrad backward optimizer_step lr_scheduler_step shuffle
      data_tr eps m epochs batch_size trainer0 = Some s
    /\ Forall (event_within eps) (log s)
    /\ delta_within eps (delta s).
Proof.
  intros Heps Hbs Hdata. unfold free_adv_train, train_with.
  destruct batch_size as [|b]; [lia|]. destruct data_tr as [|d data]; [congruence|].
  eexists. split; [reflexivity|].
  apply and_comm.
  apply (epochs_bounded T Label PGrad backward optimizer_step lr_scheduler_step
           eps Heps m _ (fun k => chunks b (shuffle k (d :: data)))).
  split; cbn [delta log]; [now apply zeros_within | constructor].
Qed.

Lemma delta_stays_within_eps_witness :
  exists s,
    free_adv_train nat nat unit tilt count_step keep_rate in_order
      two_white_pixels (1 # 10) 2 3 1 0 = Some s
    /\ Forall (event_within (1 # 10)) (log s)
    /\ delta_within (1 # 10) (delta s).
Proof.
  apply (delta_stays_within_eps nat nat unit tilt count_step keep_rate in_order
           two_white_pixels (1 # 10) 2 3 1 0).
  - discriminate.
  - lia.
  - discriminate.
Defined.

(** *** When the scheduler steps *)

Lemma steps_of_app (l1 l2 : list event) :
  steps_of (l1 ++ l2) = steps_of l1 ++ steps_of l2.
Proof. unfold steps_of. apply List.filter_app. Qed.

Lemma blocks_succ (k j : nat) :
  blocks k (S j) = repeat OptimizerStep k ++ [SchedulerStep] ++ blocks k j.
Proof. unfold blocks. cbn [repeat concat]. now rewrite <- app_assoc. Qed.

Section Steps.

Variable T : Type.
Variable Label : Type.
Variable PGrad : Type.
Variable backward : T -> list (list Q) -> list Label -> T * PGrad * list (list Q).
Variable optimizer_step : T -> PGrad -> T.
Variable lr_scheduler_step : T -> T.
Variable eps : Q.
Variable m : nat.

Local Abbreviation rep := (inner_rep T Label PGrad backward optimizer_step).
Local Abbreviation batch_of := (train_batch T Label lr_scheduler_step rep eps m).
Local Abbreviation epoch_of := (train_epoch T Label lr_scheduler_step rep eps m).

Lemma inner_rep_steps (inputs : list (list Q)) (targets : list Label)
  (bs : batch_state T) :
  steps_of (log (fst (rep eps inputs targets bs)))
  = steps_of (log (fst bs)) ++ [OptimizerStep].
Proof.
  destruct bs as [s ig]. unfold inner_rep.
  destruct (backward _ _ _) as [[t pgrad] g_adv]. cbn [fst log].
  now rewrite steps_of_app.
Qed.

Lemma inner_loop_steps (inputs : list (list Q)) (targets : list Label)
  (bs : batch_state T) :
  steps_of (log (fst (Nat.iter m (rep eps inputs targets) bs)))
  = steps_of (log (fst bs)) ++ repeat OptimizerStep m.
Proof.
  induction m as [|k IH].
  - cbn. now rewrite app_nil_r.
  - rewrite Nat.iter_succ, inner_rep_steps, IH, <- app_assoc. f_equal.
    symmetry. apply repeat_cons.
Qed.

Lemma train_batch_steps (S_iters i : nat) (batch : list (list Q * Label))
  (s : state T) :
  steps_of (log (batch_of S_iters i batch s))
  = steps_of (log s) ++ repeat OptimizerStep m
    ++ (if (i + 1) mod S_iters =? 0 then [SchedulerStep] else []).
Proof.
  unfold train_batch.
  pose proof (inner_loop_steps (map fst batch) (map snd batch) (s, None)) as Hin.
  cbn [fst] in Hin.
  destruct (_ =? 0); cbn [log].
  - now rewrite steps_of_app, Hin, <- app_assoc.
  - now rewrite Hin, app_nil_r.
Qed.

(** Before the last batch of a pass the scheduler does not step. *)
Lemma train_epoch_steps_inside (S_iters : nat)
  (batches : list (list (list Q * Label))) :
  forall (i : nat) (s : state T),
  i + length batches < S_iters ->
  steps_of (log (epoch_of S_iters i batches s))
  = steps_of (log s) ++ repeat OptimizerStep (m * length batches).
Proof.
  induction batches as [|batch rest IH]; intros i s Hlt; cbn [train_epoch length] in *.
  - now rewrite Nat.mul_0_r, app_nil_r.
  - rewrite IH by lia. rewrite train_batch_steps.
    rewrite Nat.mod_small by lia.
    destruct (Nat.eqb_spec (i + 1) 0); [lia|].
    rewrite app_nil_r, <- app_assoc, <- repeat_app. do 2 f_equal. lia.
Qed.

(** A pass that ends at batch index [S_iters - 1] steps the scheduler once,
    after its last batch. *)
Lemma train_epoch_steps_through (S_iters : nat)
  (batches : list (list (list Q * Label))) :
  forall (i : nat) (s : state T),
  batches <> [] ->
  i + length batches = S_iters ->
  steps_of (log (epoch_of S_iters i batches s))
  = steps_of (log s) ++ repeat OptimizerStep (m * length batches) ++ [SchedulerStep].
Proof.
  induction batches as [|batch rest IH]; intros i s Hne Hlen; [congruence|].
  cbn [train_epoch length] in *.
  destruct rest as [|batch' rest'].
  - cbn [train_epoch length] in *. rewrite train_batch_steps.
    replace (i + 1) with S_iters by lia.
    rewrite Nat.Div0.mod_same. cbn [Nat.eqb].
    now rewrite Nat.mul_1_r.
  - rewrite IH by (cbn [length] in *; (discriminate || lia)).
    rewrite train_batch_steps.
    rewrite Nat.mod_small by (cbn [length] in *; lia).
    destruct (Nat.eqb_spec (i + 1) 0); [lia|].
    rewrite app_nil_r, <- !app_assoc. f_equal.
    rewrite app_assoc, <- repeat_app. do 2 f_equal. lia.
Qed.

Lemma epochs_steps (S_iters : nat)
  (loader_tr : nat -> list (list (list Q * Label))) :
  0 < S_iters ->
  (forall k, length (loader_tr k) = S_iters) ->
  forall (epochs : list nat) (s : state T),
  steps_of (log (fold_left
                   (fun s epoch => epoch_of S_iters 0 (loader_tr (S epoch)) s)
                   epochs s))
  = steps_of (log s) ++ blocks (m * S_iters) (length epochs).
Proof.
  intros Hpos Hlen epochs.
  induction epochs as [|e es IH]; intros s; cbn [fold_left length].
  - unfold blocks. cbn. now rewrite app_nil_r.
  - rewrite IH. rewrite train_epoch_steps_through.
    + rewrite Hlen, blocks_succ, <- !app_assoc. reflexivity.
    + intros Hnil. specialize (Hlen (S e)). rewrite Hnil in Hlen. cbn in Hlen. lia.
    + now rewrite Hlen.
Qed.

End Steps.

(** The reading of C4 in the specification: a scheduler step after every [k]
    optimizer steps. *)
Definition steps_every (k : nat) (steps : list event) : Prop :=
  exists j, steps = blocks k j.

(** C4 (as amended).  With [scheduler_step_iters = ceil(len(data_tr) /
    batch_size)], the scheduler steps once after every [scheduler_step_iters]
    batches of the outer loop, that is after every [m * scheduler_step_iters]
    optimizer steps: once per epoch, after its last batch. *)
Theorem scheduler_steps_once_per_pass
  (T Label PGrad : Type)
  (backward : T -> list (list Q) -> list Label -> T * PGrad * list (list Q))
  (optimizer_step : T -> PGrad -> T) (lr_scheduler_step : T -> T)
  (shuffle : nat -> list (list Q * Label) -> list (list Q * Label))
  (shuffle_perm : forall k data, Permutation (shuffle k data) data)
  (data_tr : list (list Q * Label)) (eps : Q) (m epochs batch_size : nat)
  (trainer0 : T) :
  0 < batch_size ->
  data_tr <> [] ->
  let scheduler_step_iters := ceil_div (length data_tr) batch_size in
  exists s,
    free_adv_train T Label PGrad backward optimizer_step lr_scheduler_step shuffle
      data_tr eps m epochs batch_size trainer0 = Some s
    /\ steps_of (log s) = blocks (m * scheduler_step_iters) epochs.
Proof.
  intros Hbs Hdata. cbv zeta. unfold free_adv_train, train_with.
  destruct batch_size as [|b]; [lia|]. destruct data_tr as [|d data]; [congruence|].
  eexists. split; [reflexivity|].
  rewrite (epochs_steps T Label PGrad backward optimizer_step lr_scheduler_step
             eps m (ceil_div (length (d :: data)) (S b))
             (fun k => chunks b (shuffle k (d :: data)))).
  - cbn [log steps_of List.filter app]. now rewrite length_seq.
  - cbn [length]. rewrite ceil_div_step. lia.
  - intros k. rewrite chunks_length.
    now rewrite (Permutation_length (shuffle_perm k (d :: data))).
Qed.

Lemma scheduler_steps_once_per_pass_witness :
  exists s,
    free_adv_train nat nat unit tilt count_step keep_rate in_order
      two_white_pixels (1 # 10) 2 3 1 0 = Some s
    /\ steps_of (log s) = blocks (2 * ceil_div (length two_white_pixels) 1) 3.
Proof.
  apply (scheduler_steps_once_per_pass nat nat unit tilt count_step keep_rate in_order).
  - intros k data. apply Permutation_refl.
  - lia.
  - discriminate.
Defined.

(** C4 (as stated) fails: with two samples, [batch_size = 1] (so
    [scheduler_step_iters = 2]) and [m = 2], the first scheduler step comes
    after four optimizer steps. *)
Lemma scheduler_not_every_step_iters :
  ceil_div (length two_white_pixels) 1 = 2
  /\ (fun s => steps_of (log s)) <$>
       free_adv_train nat nat unit tilt count_step keep_rate in_order
         two_white_pixels (1 # 10) 2 1 1 0
     = Some [OptimizerStep; OptimizerStep; OptimizerStep; OptimizerStep; SchedulerStep]
  /\ ~ steps_every 2
        [OptimizerStep; OptimizerStep; OptimizerStep; OptimizerStep; SchedulerStep].
Proof.
  split; [reflexivity|]. split; [reflexivity|].
  intros [j Hj]. destruct j as [|j]; [discriminate|].
  rewrite blocks_succ in Hj. cbn in Hj. discriminate.
Qed.

(** *** Which gradient moves the perturbation *)







(** Within a batch [inputs.grad] is never reset, so later repetitions move
    [delta] along the sign of a sum of gradients: one sample of value 1/2,
    [m = 2].  The second repetition adds the gradient [-1] to the [1] left by
    the first, the sum has sign [0] and [delta] stays at [1/10]; along the
    second gradient alone it would return to [0]. *)
Lemma inputs_grad_accumulates :
  delta <$> free_adv_train nat nat unit tilt count_step keep_rate in_order
              [([1 # 2]%Q, 0)] (1 # 10) 2 1 1 0
  = Some [[(10 # 100)%Q]]
  /\ delta <$> spec_free_adv_train nat nat unit tilt count_step keep_rate in_order
                 [([1 # 2]%Q, 0)] (1 # 10) 2 1 1 0
     = Some [[(0 # 100)%Q]].
Proof. split; reflexivity. Qed.

(** *** Further properties of a training run *)

Definition is_optimizer_step (e : event) : bool :=
  match e with
  | OptimizerStep => true
  | _ => false
  end.

Definition is_scheduler_step (e : event) : bool :=
  match e with
  | SchedulerStep => true
  | _ => false
  end.

(** The number of events of a kind in a log. *)
Definition count_events (kind : event -> bool) (log : list event) : nat :=
  length (List.filter kind log).

(** The value of [delta] after the events of a log, from the value [cur]. *)
Fixpoint last_delta (cur : list (list Q)) (log : list event) : list (list Q) :=
  match log with
  | [] => cur
  | DeltaUpdate d :: log' => last_delta d log'
  | _ :: log' => last_delta cur log'
  end.

(** Every read of [delta] finds the value left by the update before it (or
    the initial value [cur]). *)
Fixpoint delta_chain (cur : list (list Q)) (log : list event) : Prop :=
  match log with
  | [] => True
  | DeltaRead d :: log' => d = cur /\ delta_chain cur log'
  | DeltaUpdate d :: log' => delta_chain d log'
  | _ :: log' => delta_chain cur log'
  end.

Lemma count_events_app (kind : event -> bool) (l1 l2 : list event) :
  count_events kind (l1 ++ l2) = count_events kind l1 + count_events kind l2.
Proof. unfold count_events. now rewrite List.filter_app, length_app. Qed.

Lemma count_events_steps_of (kind : event -> bool) (log : list event) :
  (forall e, kind e = true -> is_step e = true) ->
  count_events kind (steps_of log) = count_events kind log.
Proof.
  intros Hkind. unfold count_events, steps_of.
  induction log as [|e log IH]; cbn [List.filter]; [reflexivity|].
  destruct (is_step e) eqn:Hstep; cbn [List.filter].
  - destruct (kind e); cbn [length]; now rewrite IH.
  - destruct (kind e) eqn:Hk; [|exact IH].
    apply Hkind in Hk. congruence.
Qed.

Lemma count_optimizer_repeat (k : nat) :
  count_events is_optimizer_step (repeat OptimizerStep k) = k.
Proof.
  unfold count_events. induction k as [|k IH]; cbn; [reflexivity|]. now rewrite IH.
Qed.

Lemma count_scheduler_repeat (k : nat) :
  count_events is_scheduler_step (repeat OptimizerStep k) = 0.
Proof.
  unfold count_events. induction k as [|k IH]; cbn; [reflexivity | exact IH].
Qed.

Lemma count_optimizer_blocks (k j : nat) :
  count_events is_optimizer_step (blocks k j) = j * k.
Proof.
  induction j as [|j IH]; [reflexivity|].
  rewrite blocks_succ, !count_events_app, IH, count_optimizer_repeat. cbn. lia.
Qed.

Lemma count_scheduler_blocks (k j : nat) :
  count_events is_scheduler_step (blocks k j) = j.
Proof.
  induction j as [|j IH]; [reflexivity|].
  rewrite blocks_succ, !count_events_app, IH, count_scheduler_repeat. cbn. lia.
Qed.

Lemma last_delta_app (l1 l2 : list event) :
  forall cur, last_delta cur (l1 ++ l2) = last_delta (last_delta cur l1) l2.
Proof.
  induction l1 as [|e l1 IH]; intros cur; cbn; [reflexivity|].
  destruct e; apply IH.
Qed.

Lemma delta_chain_app (l1 l2 : list event) :
  forall cur,
  delta_chain cur l1 -> delta_chain (last_delta cur l1) l2 ->
  delta_chain cur (l1 ++ l2).
Proof.
  induction l1 as [|e l1 IH]; intros cur H1 H2; cbn in *; [exact H2|].
  destruct e; try (apply IH; assumption).
  destruct H1 as [-> H1]. split; [reflexivity|]. now apply IH.
Qed.

(** Inside the bounds the clamp changes nothing. *)
Lemma clamp_fixes_within (lo hi v : Q) : within lo hi v -> clamp lo hi v = v.
Proof.
  intros [Hlo Hhi]. unfold clamp, Qmax, Qmin, GenericMinMax.gmax, GenericMinMax.gmin.
  destruct (v ?= lo)%Q eqn:Hc.
  - destruct (v ?= hi)%Q eqn:Hc'; try reflexivity.
    apply Qgt_alt in Hc'. now apply Qlt_not_le in Hc'.
  - apply Qlt_alt in Hc. now apply Qlt_not_le in Hc.
  - destruct (v ?= hi)%Q eqn:Hc'; try reflexivity.
    apply Qgt_alt in Hc'. now apply Qlt_not_le in Hc'.
Qed.

Lemma tmap_clamp_fixes_within (lo hi : Q) (a : list (list Q)) :
  Forall (Forall (within lo hi)) a -> tmap (clamp lo hi) a = a.
Proof.
  unfold tmap. induction 1 as [|r a Hr Ha IH]; cbn [map]; [reflexivity|].
  rewrite IH. f_equal.
  induction Hr as [|v r Hv Hr IHr]; cbn [map]; [reflexivity|].
  now rewrite IHr, clamp_fixes_within.
Qed.

Section RunFacts.

Variable T : Type.
Variable Label : Type.
Variable PGrad : Type.
Variable backward : T -> list (list Q) -> list Label -> T * PGrad * list (list Q).
Variable optimizer_step : T -> PGrad -> T.
Variable lr_scheduler_step : T -> T.
Variable shuffle : nat -> list (list Q * Label) -> list (list Q * Label).
Variable eps : Q.

Local Abbreviation rep := (inner_rep T Label PGrad backward optimizer_step).
Local Abbreviation batch_of := (train_batch T Label lr_scheduler_step rep eps).
Local Abbreviation epoch_of := (train_epoch T Label lr_scheduler_step rep eps).

(** The steps of a whole run. *)
Lemma run_steps (data_tr : list (list Q * Label)) (m epochs batch_size : nat)
  (trainer0 : T) :
  (forall k data, Permutation (shuffle k data) data) ->
  0 < batch_size ->
  data_tr <> [] ->
  exists s,
    free_adv_train T Label PGrad backward optimizer_step lr_scheduler_step shuffle
      data_tr eps m epochs batch_size trainer0 = Some s
    /\ steps_of (log s) = blocks (m * ceil_div (length data_tr) batch_size) epochs.
Proof.
  intros Hperm Hbs Hdata. unfold free_adv_train, train_with.
  destruct batch_size as [|b]; [lia|]. destruct data_tr as [|d data]; [congruence|].
  eexists. split; [reflexivity|].
  rewrite (epochs_steps T Label PGrad backward optimizer_step lr_scheduler_step
             eps m (ceil_div (length (d :: data)) (S b))
             (fun k => chunks b (shuffle k (d :: data)))).
  - cbn [log steps_of List.filter app]. now rewrite length_seq.
  - cbn [length]. rewrite ceil_div_step. lia.
  - intros k. rewrite chunks_length.
    now rewrite (Permutation_length (Hperm k (d :: data))).
Qed.

(** The log written so far is a chain from [delta0] that ends at the current
    [delta]. *)
Definition chained (delta0 : list (list Q)) (s : state T) : Prop :=
  delta_chain delta0 (log s) /\ last_delta delta0 (log s) = delta s.

Lemma inner_rep_chained (delta0 : list (list Q)) (inputs : list (list Q))
  (targets : list Label) (bs : batch_state T) :
  chained delta0 (fst bs) -> chained delta0 (fst (rep eps inputs targets bs)).
Proof.
  destruct bs as [s ig]. intros [Hc Hl]. cbn [fst] in Hc, Hl. unfold inner_rep.
  destruct (backward _ _ _) as [[t pgrad] g_adv]. cbn [fst].
  split; cbn [delta log].
  - apply delta_chain_app; [exact Hc|]. rewrite Hl. cbn. auto.
  - now rewrite last_delta_app.
Qed.

Lemma inner_loop_chained (delta0 : list (list Q)) (inputs : list (list Q))
  (targets : list Label) (m : nat) (bs : batch_state T) :
  chained delta0 (fst bs) ->
  chained delta0 (fst (Nat.iter m (rep eps inputs targets) bs)).
Proof.
  intros Hb. induction m as [|m IH]; [exact Hb|].
  rewrite Nat.iter_succ. now apply inner_rep_chained.
Qed.

Lemma train_batch_chained (delta0 : list (list Q)) (m S_iters i : nat)
  (batch : list (list Q * Label)) (s : state T) :
  chained delta0 s -> chained delta0 (batch_of m S_iters i batch s).
Proof.
  intros Hb. unfold train_batch.
  pose proof (inner_loop_chained delta0 (map fst batch) (map snd batch) m (s, None) Hb)
    as [Hc Hl].
  destruct (_ =? 0); [|now split].
  split; cbn [delta log].
  - apply delta_chain_app; [exact Hc | exact I].
  - now rewrite last_delta_app.
Qed.

Lemma train_epoch_chained (delta0 : list (list Q)) (m S_iters : nat)
  (batches : list (list (list Q * Label))) :
  forall (i : nat) (s : state T),
  chained delta0 s -> chained delta0 (epoch_of m S_iters i batches s).
Proof.
  induction batches as [|batch rest IH]; intros i s Hb; cbn [train_epoch].
  - exact Hb.
  - apply IH. now apply train_batch_chained.
Qed.

Lemma epochs_chained (delta0 : list (list Q)) (m S_iters : nat)
  (loader_tr : nat -> list (list (list Q * Label))) (epochs : list nat) :
  forall s : state T,
  chained delta0 s ->
  chained delta0 (fold_left
                    (fun s epoch => epoch_of m S_iters 0 (loader_tr (S epoch)) s)
                    epochs s).
Proof.
  induction epochs as [|e es IH]; intros s Hb; cbn [fold_left].
  - exact Hb.
  - apply IH. now apply train_epoch_chained.
Qed.

(** Without repetition a batch only lets the scheduler step. *)
Lemma train_epoch_idle_inside (S_iters : nat) (batches : list (list (list Q * Label))) :
  forall (i : nat) (s : state T),
  i + length batches < S_iters ->
  epoch_of 0 S_iters i batches s = s.
Proof.
  induction batches as [|batch rest IH]; intros i s Hlt; cbn [train_epoch length] in *.
  - reflexivity.
  - rewrite IH by lia. unfold train_batch. cbn [Nat.iter nat_rect fst].
    rewrite Nat.mod_small by lia.
    destruct (Nat.eqb_spec (i + 1) 0); [lia | reflexivity].
Qed.

Lemma train_epoch_idle_through (S_iters : nat) (batches : list (list (list Q * Label))) :
  forall (i : nat) (s : state T),
  batches <> [] ->
  i + length batches = S_iters ->
  epoch_of 0 S_iters i batches s
  = mkState (lr_scheduler_step (trainer s)) (delta s) (log s ++ [SchedulerStep]).
Proof.
  induction batches as [|batch rest IH]; intros i s Hne Hlen; [congruence|].
  cbn [train_epoch length] in *.
  destruct rest as [|batch' rest'].
  - cbn [train_epoch length] in *. unfold train_batch. cbn [Nat.iter nat_rect fst].
    replace (i + 1) with S_iters by lia.
    now rewrite Nat.Div0.mod_same.
  - rewrite IH by (cbn [length] in *; (discriminate || lia)).
    unfold train_batch. cbn [Nat.iter nat_rect fst].
    rewrite Nat.mod_small by (cbn [length] in *; lia).
    destruct (Nat.eqb_spec (i + 1) 0); [lia | reflexivity].
Qed.

Lemma epochs_idle (S_iters : nat) (loader_tr : nat -> list (list (list Q * Label))) :
  0 < S_iters ->
  (forall k, length (loader_tr k) = S_iters) ->
  forall (epochs : list nat) (s : state T),
  fold_left (fun s epoch => epoch_of 0 S_iters 0 (loader_tr (S epoch)) s) epochs s
  = mkState (Nat.iter (length epochs) lr_scheduler_step (trainer s)) (delta s)
      (log s ++ repeat SchedulerStep (length epochs)).
Proof.
  intros Hpos Hlen epochs.
  induction epochs as [|e es IH]; intros s; cbn [fold_left length repeat].
  - cbn. rewrite app_nil_r. now destruct s.
  - rewrite IH, train_epoch_idle_through.
    + cbn [trainer delta log]. rewrite Nat.iter_succ_r, <- app_assoc. reflexivity.
    + intros Hnil. specialize (Hlen (S e)). rewrite Hnil in Hlen. cbn in Hlen. lia.
    + now rewrite Hlen.
Qed.

End RunFacts.

(** X7.  A run takes [epochs * len(loader_tr) * m] optimizer steps, [m] times
    the [total_updates] of line 41, and [epochs] scheduler steps. *)
Theorem run_counts_its_steps
  (T Label PGrad : Type)
  (backward : T -> list (list Q) -> list Label -> T * PGrad * list (list Q))
  (optimizer_step : T -> PGrad -> T) (lr_scheduler_step : T -> T)
  (shuffle : nat -> list (list Q * Label) -> list (list Q * Label))
  (shuffle_perm : forall k data, Permutation (shuffle k data) data)
  (data_tr : list (list Q * Label)) (eps : Q) (m epochs batch_size : nat)
  (trainer0 : T) :
  0 < batch_size ->
  data_tr <> [] ->
  exists s,
    free_adv_train T Label PGrad backward optimizer_step lr_scheduler_step shuffle
      data_tr eps m epochs batch_size trainer0 = Some s
    /\ count_events is_optimizer_step (log s)
       = epochs * ceil_div (length data_tr) batch_size * m
    /\ count_events is_scheduler_step (log s) = epochs.
Proof.
  intros Hbs Hdata.
  destruct (run_steps T Label PGrad backward optimizer_step lr_scheduler_step shuffle
              eps data_tr m epochs batch_size trainer0 shuffle_perm Hbs Hdata)
    as (s & Hrun & Hsteps).
  exists s. split; [exact Hrun|].
  rewrite <- (count_events_steps_of is_optimizer_step (log s)),
          <- (count_events_steps_of is_scheduler_step (log s)), Hsteps.
  - rewrite count_optimizer_blocks, count_scheduler_blocks. split; [lia | reflexivity].
  - now intros [].
  - now intros [].
Qed.

Lemma run_counts_its_steps_witness :
  exists s,
    free_adv_train nat nat unit tilt count_step keep_rate in_order
      two_white_pixels (1 # 10) 2 3 1 0 = Some s
    /\ count_events is_optimizer_step (log s)
       = 3 * ceil_div (length two_white_pixels) 1 * 2
    /\ count_events is_scheduler_step (log s) = 3.
Proof.
  apply (run_counts_its_steps nat nat unit tilt count_step keep_rate in_order).
  - intros k data. apply Permutation_refl.
  - lia.
  - discriminate.
Defined.

(** X8.  [delta] is never reset: it starts as a zero buffer of [batch_size]
    rows, and every read of it, in any batch of any epoch, finds the value
    that the last perturbation update left. *)
Theorem delta_is_never_reset
  (T Label PGrad : Type)
  (backward : T -> list (list Q) -> list Label -> T * PGrad * list (list Q))
  (optimizer_step : T -> PGrad -> T) (lr_scheduler_step : T -> T)
  (shuffle : nat -> list (list Q * Label) -> list (list Q * Label))
  (data_tr : list (list Q * Label)) (eps : Q) (m epochs batch_size : nat)
  (trainer0 : T) :
  0 < batch_size ->
  data_tr <> [] ->
  exists s d,
    free_adv_train T Label PGrad backward optimizer_step lr_scheduler_step shuffle
      data_tr eps m epochs batch_size trainer0 = Some s
    /\ delta_chain (repeat (repeat 0%Q d) batch_size) (log s)
    /\ last_delta (repeat (repeat 0%Q d) batch_size) (log s) = delta s.
Proof.
  intros Hbs Hdata. unfold free_adv_train, train_with.
  destruct batch_size as [|b]; [lia|]. destruct data_tr as [|x data]; [congruence|].
  eexists _, _. split; [reflexivity|].
  apply (epochs_chained T Label PGrad backward optimizer_step lr_scheduler_step
           eps _ m _ (fun k => chunks b (shuffle k (x :: data)))).
  split; [exact I | reflexivity].
Qed.

Lemma delta_is_never_reset_witness :
  exists s d,
    free_adv_train nat nat unit tilt count_step keep_rate in_order
      two_white_pixels (1 # 10) 2 3 1 0 = Some s
    /\ delta_chain (repeat (repeat 0%Q d) 1) (log s)
    /\ last_delta (repeat (repeat 0%Q d) 1) (log s) = delta s.
Proof.
  apply (delta_is_never_reset nat nat unit tilt count_step keep_rate in_order).
  - lia.
  - discriminate.
Defined.

(** X9.  On a batch of [b] rows, with [delta] within [[-eps, eps]], an inner
    repetition keeps the number of rows of [delta] and leaves its rows from
    [b] on as they are (the gradients having one row per input). *)
Theorem rows_beyond_batch_are_kept
  (T Label PGrad : Type)
  (backward : T -> list (list Q) -> list Label -> T * PGrad * list (list Q))
  (optimizer_step : T -> PGrad -> T)
  (backward_rows : forall t a l, length (snd (backward t a l)) = length a)
  (eps : Q) (inputs : list (list Q)) (targets : list Label)
  (s : state T) (grad : option (list (list Q))) :
  delta_within eps (delta s) ->
  length inputs <= length (delta s) ->
  (forall acc, grad = Some acc -> length acc = length inputs) ->
  let after := inner_rep T Label PGrad backward optimizer_step eps inputs targets
                 (s, grad) in
  length (delta (fst after)) = length (delta s)
  /\ skipn (length inputs) (delta (fst after)) = skipn (length inputs) (delta s).
Proof.
  intros Hwithin Hle Hgrad. cbv zeta. unfold inner_rep.
  set (b := length inputs) in *.
  set (pre := tzip Qplus inputs (firstn b (delta s))).
  pose proof (backward_rows (trainer s) (tmap (clamp 0 1) pre) targets) as Hrows.
  destruct (backward _ _ _) as [[t pgrad] g_adv]. cbn [snd fst delta] in *.
  assert (Hpre : length pre = b).
  { unfold pre, tzip. rewrite length_zip_with, length_firstn. fold b. lia. }
  assert (Hg : length g_adv = b).
  { rewrite Hrows. unfold tmap. now rewrite length_map. }
  assert (Hig : length (accumulate grad (through_clamp g_adv pre)) = b).
  { assert (Hthrough : length (through_clamp g_adv pre) = b).
    { unfold through_clamp, tzip. rewrite length_zip_with. lia. }
    destruct grad as [acc|]; cbn [accumulate]; [|exact Hthrough].
    unfold tzip. rewrite length_zip_with, (Hgrad acc eq_refl). fold b. lia. }
  set (ig := accumulate grad (through_clamp g_adv pre)) in *.
  assert (Hdb : length (tzip (fun d g => (d + eps * sign g)%Q) (firstn b (delta s)) ig) = b).
  { unfold tzip. rewrite length_zip_with, length_firstn. lia. }
  split.
  - unfold tmap. rewrite length_map, length_app, Hdb, length_skipn. lia.
  - unfold tmap. rewrite skipn_map, skipn_app, Hdb, Nat.sub_diag.
    rewrite skipn_all2 by lia. cbn [app skipn].
    apply (tmap_clamp_fixes_within (- eps) eps).
    apply Forall_drop. exact Hwithin.
Qed.

Lemma rows_beyond_batch_are_kept_witness :
  let s := mkState 0 [[0%Q]; [1 # 20]%Q] [] in
  let after := inner_rep nat nat unit tilt count_step (1 # 10) [[1 # 2]%Q] [0] (s, None) in
  length (delta (fst after)) = length (delta s)
  /\ skipn (length [[1 # 2]%Q]) (delta (fst after)) = skipn (length [[1 # 2]%Q]) (delta s).
Proof.
  apply (rows_beyond_batch_are_kept nat nat unit tilt count_step).
  - intros t a l. unfold tilt, tmap. cbn [snd]. apply length_map.
  - repeat constructor; cbn; discriminate.
  - cbn. lia.
  - discriminate.
Defined.

(** X10.  With [m = 0] a run trains nothing: it takes no optimizer step and
    leaves [delta] at zero, but the scheduler still steps once per epoch. *)
Theorem run_without_repetition
  (T Label PGrad : Type)
  (backward : T -> list (list Q) -> list Label -> T * PGrad * list (list Q))
  (optimizer_step : T -> PGrad -> T) (lr_scheduler_step : T -> T)
  (shuffle : nat -> list (list Q * Label) -> list (list Q * Label))
  (shuffle_perm : forall k data, Permutation (shuffle k data) data)
  (data_tr : list (list Q * Label)) (eps : Q) (epochs batch_size : nat)
  (trainer0 : T) :
  0 < batch_size ->
  data_tr <> [] ->
  exists d,
    free_adv_train T Label PGrad backward optimizer_step lr_scheduler_step shuffle
      data_tr eps 0 epochs batch_size trainer0
    = Some (mkState (Nat.iter epochs lr_scheduler_step trainer0)
              (repeat (repeat 0%Q d) batch_size)
              (repeat SchedulerStep epochs)).
Proof.
  intros Hbs Hdata. unfold free_adv_train, train_with.
  destruct batch_size as [|b]; [lia|]. destruct data_tr as [|x data]; [congruence|].
  eexists. f_equal.
  rewrite (epochs_idle T Label PGrad backward optimizer_step lr_scheduler_step
             eps (ceil_div (length (x :: data)) (S b))
             (fun k => chunks b (shuffle k (x :: data)))).
  - cbn [trainer delta log app]. now rewrite length_seq.
  - cbn [length]. rewrite ceil_div_step. lia.
  - intros k. rewrite chunks_length.
    now rewrite (Permutation_length (shuffle_perm k (x :: data))).
Qed.

Lemma run_without_repetition_witness :
  exists d,
    free_adv_train nat nat unit tilt count_step keep_rate in_order
      two_white_pixels (1 # 10) 0 3 1 0
    = Some (mkState (Nat.iter 3 keep_rate 0) (repeat (repeat 0%Q d) 1)
              (repeat SchedulerStep 3)).
Proof.
  apply (run_without_repetition nat nat unit tilt count_step keep_rate in_order).
  - intros k data. apply Permutation_refl.
  - lia.
  - discriminate.
Defined.

End FreeAdvTrain.

(** ** Neural Cleanse: [class NeuralCleanse] *)

Module NeuralCleanse.
Import Scalar.

(** A tensor value: its shape and its elements in row-major order. *)
Record tensor : Type := mkTensor {
  shape : list nat;
  data : list Q
}.

(** A batch of images, of shape [(B, C, H, W)]. *)
Record batch : Type := mkBatch {
  batch_shape : nat * nat * nat * nat;
  batch_data : list Q
}.

(** [x.shape[1]]. *)
Definition channels (x : batch) : nat :=
  let '(_, c, _, _) := batch_shape x in c.

(** A tensor object: rebinding a variable leaves the object it named in
    place, an in-place operation changes the object under every name. *)
Record tobj : Type := mkObj {
  val : tensor;
  grad : option (list Q)
}.

(** The tensor objects, by identity. *)
Abbreviation store := (gmap nat tobj).

(** What one update leaves behind: the shape of
    [mask.repeat(x.shape[1], 1, 1).unsqueeze(0)], and the values of the
    variables [mask] and [trigger] after the update. *)
Record snapshot : Type := mkSnapshot {
  exp_mask_shape : list nat;
  mask_after : tensor;
  trigger_after : tensor
}.

(** [t.repeat(k, 1, 1)]: the tensor is read with three dimensions and
    repeated [k] times along the first; more than three dimensions raise. *)
Definition repeat3d (k : nat) (t : tensor) : option tensor :=
  let tiled := concat (repeat (data t) k) in
  match shape t with
  | [] => Some (mkTensor [k; 1; 1] tiled)
  | [w] => Some (mkTensor [k; 1; w] tiled)
  | [h; w] => Some (mkTensor [k; h; w] tiled)
  | [c; h; w] => Some (mkTensor [k * c; h; w] tiled)
  | _ => None
  end.

(** [t.unsqueeze(0)]. *)
Definition unsqueeze0 (t : tensor) : tensor := mkTensor (1 :: shape t) (data t).

(** [torch.clamp(t, 0, 1)]: a new tensor. *)
Definition clamp01 (t : tensor) : tensor :=
  mkTensor (shape t) (map (clamp 0 1) (data t)).

(** [t -= step_size * g.sign()], on the value of [t]. *)
Definition sub_sign (step_size : Q) (t : tensor) (g : list Q) : tensor :=
  mkTensor (shape t) (zip_with (fun v d => (v - step_size * sign d)%Q) (data t) g).

(** Accumulation of a gradient into [.grad]. *)
Definition accumulate (grad : option (list Q)) (g : list Q) : list Q :=
  match grad with
  | None => g
  | Some acc => zip_with Qplus acc g
  end.

Definition unit_interval (t : tensor) : Prop := Forall (within 0 1) (data t).

Section WithModel.

(** The state of the Adam optimizer (step counts and moment estimates). *)
Variable A : Type.
Variable adam_init : A.
(** Adam's update of its [idx]-th parameter from the parameter's elements
    and gradient (with [lr = step_size]): the new state and elements. *)
Variable adam_update : A -> nat -> list Q -> list Q -> A * list Q.
(** The gradients with respect to [mask] and [trigger] of the loss of lines
    206-212, from the channel-repeated mask
    [mask.repeat(x.shape[1], 1, 1).unsqueeze(0)], the batch, the trigger,
    the mask and the target class: [expand_as(x)], the blend into
    [triggered_x], [self.model], [self.loss_func], the penalty
    [self.lambda_c * mask.abs().sum()] and autograd are inside. *)
Variable loss_grads : tensor -> batch -> tensor -> tensor -> Z -> list Q * list Q.
(** The uniform draws of torch's generator, in the order drawn. *)
Variable rand : nat -> Q.
(** Whether [optimizer.zero_grad()] drops the gradients (the default since
    torch 2.0) or zeroes them in place. *)
Variable set_to_none : bool.
(** [self.dim], [self.step_size], [self.niters]. *)
Variable dim : nat * nat * nat * nat.
Variable step_size : Q.
Variable niters : nat.

Record state : Type := mkState {
  heap : store;
  next : nat;            (* the identity of the next object created *)
  mask : nat;            (* the object the variable [mask] names *)
  trigger : nat;         (* the object the variable [trigger] names *)
  params : list nat;     (* the objects registered with the optimizer *)
  adam : A;
  updates : nat;         (* the number of updates done *)
  history : list snapshot
}.

(** [optimizer.zero_grad()]. *)
Definition zero_grad (ps : list nat) (h : store) : store :=
  foldr (fun p h =>
           alter (fun o => mkObj (val o)
                             (if set_to_none then None
                              else map (fun _ => 0%Q) <$> grad o)) p h)
        h ps.

(** [loss.backward()], for one leaf. *)
Definition backward_into (id : nat) (g : list Q) (h : store) : store :=
  alter (fun o => mkObj (val o) (Some (accumulate (grad o) g))) id h.

(** [optimizer.step()]: every registered tensor that has a gradient is
    updated in place. *)
Fixpoint optimizer_step (idx : nat) (ps : list nat) (a : A) (h : store) : A * store :=
  match ps with
  | [] => (a, h)
  | p :: ps' =>
      match h !! p with
      | Some o =>
          match grad o with
          | Some g =>
              let '(a', d') := adam_update a idx (data (val o)) g in
              optimizer_step (S idx) ps' a'
                (<[p := mkObj (mkTensor (shape (val o)) d') (grad o)]> h)
          | None => optimizer_step (S idx) ps' a h
          end
      | None => optimizer_step (S idx) ps' a h
      end
  end.

(** [t -= self.step_size * t.grad.sign(); t = torch.clamp(t, 0, 1)] for the
    variable naming object [id]: the object is changed in place, and the
    clamped tensor is a new object, [new].  A missing gradient raises. *)
Definition sign_step_and_clamp (id new : nat) (h : store) : option store :=
  o ← h !! id;
  g ← grad o;
  let stepped := sub_sign step_size (val o) g in
  Some (<[new := mkObj (clamp01 stepped) None]>
          (<[id := mkObj stepped (grad o)]> h)).

(** The body of the loop over [data_loader] (lines 202-225).  [adam_on]
    tells whether [optimizer.step()] is run. *)
Definition update (adam_on : bool) (c_t : Z) (x : batch) (st : state) : option state :=
  m ← heap st !! mask st;
  t ← heap st !! trigger st;
  r ← repeat3d (channels x) (val m);
  let exp_mask := unsqueeze0 r in
  let '(g_mask, g_trigger) := loss_grads exp_mask x (val t) (val m) c_t in
  let h := zero_grad (params st) (heap st) in
  let h := backward_into (trigger st) g_trigger (backward_into (mask st) g_mask h) in
  let '(a, h) :=
    if adam_on then optimizer_step 0 (params st) (adam st) h else (adam st, h) in
  let mask' := next st in
  let trigger' := S (next st) in
  h ← sign_step_and_clamp (mask st) mask' h;
  h ← sign_step_and_clamp (trigger st) trigger' h;
  m' ← h !! mask';
  t' ← h !! trigger';
  Some (mkState h (S (S (next st))) mask' trigger' (params st) a (S (updates st))
          (history st ++ [mkSnapshot (shape exp_mask) (val m') (val t')])).

Section Loops.

(** Whether [optimizer.step()] is run at the update that follows [k]
    updates. *)
Variable adam_on : nat -> bool.

(** [for x, _ in data_loader]. *)
Fixpoint run_batches (c_t : Z) (batches : list batch) (st : state) : option state :=
  match batches with
  | [] => Some st
  | x :: rest =>
      match update (adam_on (updates st)) c_t x st with
      | Some st' => run_batches c_t rest st'
      | None => None
      end
  end.

(** [for i in range(self.niters)], from pass [i], [n] passes. *)
Fixpoint run_iters (c_t : Z) (data_loader : nat -> list batch) (i n : nat)
  (st : state) : option state :=
  match n with
  | 0 => Some st
  | S n' =>
      match run_batches c_t (data_loader i) st with
      | Some st' => run_iters c_t data_loader (S i) n' st'
      | None => None
      end
  end.

(** [torch.rand((dim[2], dim[3]))] and [torch.rand(self.dim)]. *)
Definition mask_init : tensor :=
  let '(_, _, d2, d3) := dim in
  mkTensor [d2; d3] (map rand (seq 0 (d2 * d3))).

Definition trigger_init : tensor :=
  let '(d0, d1, d2, d3) := dim in
  mkTensor [d0; d1; d2; d3] (map rand (seq (d2 * d3) (d0 * d1 * d2 * d3))).

(** The state after line 198: the two tensors are objects [0] and [1], both
    registered with the optimizer. *)
Definition init : state :=
  mkState (<[1 := mkObj trigger_init None]> (<[0 := mkObj mask_init None]> ∅))
    2 0 1 [0; 1] adam_init 0 [].

(** The two loops. *)
Definition optimize (c_t : Z) (data_loader : nat -> list batch) : option state :=
  run_iters c_t data_loader 0 niters init.

(** Lines 193-230. *)
Definition find_with (c_t : Z) (data_loader : nat -> list batch)
  : option (tensor * tensor) :=
  st ← optimize c_t data_loader;
  m ← heap st !! mask st;
  t ← heap st !! trigger st;
  m3 ← repeat3d 3 (val m);
  Some (m3, val t).

End Loops.

(** [NeuralCleanse.find_candidate_backdoor]: [optimizer.step()] is run at
    every update. *)
Definition find_candidate_backdoor := find_with (fun _ => true).

(** The variant in which [optimizer.step()] is run at the first update
    only. *)
Definition find_adam_first_only := find_with (fun k => k =? 0).

End WithModel.

Arguments heap {A}.
Arguments next {A}.
Arguments mask {A}.
Arguments trigger {A}.
Arguments params {A}.
Arguments adam {A}.
Arguments updates {A}.
Arguments history {A}.

(** *** Concrete collaborators, used to instantiate the statements *)

(** A stand-in for Adam: a gradient step of rate 1/100 that counts its
    calls. *)
Definition plain_descent (a : nat) (_ : nat) (d g : list Q) : nat * list Q :=
  (S a, zip_with (fun v dv => (v - (1 # 100) * dv)%Q) d g).

(** A loss that grows with every mask element and falls with every trigger
    element. *)
Definition pull (_ : tensor) (_ : batch) (t m : tensor) (_ : Z) : list Q * list Q :=
  (map (fun _ => 1%Q) (data m), map (fun _ => (-1)%Q) (data t)).

(** A generator whose draws are all one half. *)
Definition halves (_ : nat) : Q := (1 # 2)%Q.

(** One batch of one grey-scale image of two pixels, at every pass. *)
Definition one_batch (_ : nat) : list batch := [mkBatch (1, 1, 1, 2) [0%Q; 1%Q]].

(** *** The store through the phases of an update *)

(** What in-place updates keep of an object: its shape and its gradient. *)
Definition frame (o : tobj) : list nat * option (list Q) := (shape (val o), grad o).

Lemma clamp01_unit_interval (t : tensor) : unit_interval (clamp01 t).
Proof.
  unfold unit_interval, clamp01. cbn [data].
  apply List.Forall_forall. intros v Hv. apply in_map_iff in Hv as (v' & <- & _).
  now apply clamp_within.
Qed.

Lemma repeat3d_matrix (k h w : nat) (t : tensor) :
  shape t = [h; w] ->
  repeat3d k t = Some (mkTensor [k; h; w] (concat (repeat (data t) k))).
Proof. intros Hs. unfold repeat3d. now rewrite Hs. Qed.

Section Store.

Variable A : Type.
Variable adam_update : A -> nat -> list Q -> list Q -> A * list Q.
Variable set_to_none : bool.
Variable step_size : Q.

Lemma zero_grad_off (ps : list nat) (h : store) (i : nat) :
  i ∉ ps -> zero_grad set_to_none ps h !! i = h !! i.
Proof.
  induction ps as [|p ps IH]; intros Hi; cbn [zero_grad foldr]; [reflexivity|].
  apply not_elem_of_cons in Hi as [Hne Hi].
  rewrite lookup_alter_ne by congruence. now apply IH.
Qed.

Lemma zero_grad_val (ps : list nat) (h : store) (i : nat) :
  val <$> zero_grad set_to_none ps h !! i = val <$> h !! i.
Proof.
  induction ps as [|p ps IH]; cbn [zero_grad foldr]; [reflexivity|].
  destruct (decide (p = i)) as [->|Hne].
  - rewrite lookup_alter_eq. fold (zero_grad set_to_none ps h).
    rewrite <- IH. now destruct (zero_grad set_to_none ps h !! i).
  - rewrite lookup_alter_ne by exact Hne. exact IH.
Qed.

Lemma optimizer_step_off (ps : list nat) :
  forall (idx : nat) (a : A) (h : store) (i : nat),
  i ∉ ps -> (optimizer_step A adam_update idx ps a h).2 !! i = h !! i.
Proof.
  induction ps as [|p ps IH]; intros idx a h i Hi; cbn [optimizer_step]; [reflexivity|].
  apply not_elem_of_cons in Hi as [Hne Hi].
  destruct (h !! p) as [o|]; [|now apply IH].
  destruct (grad o) as [g|]; [|now apply IH].
  destruct (adam_update a idx (data (val o)) g) as [a' d'].
  rewrite IH by exact Hi. apply lookup_insert_ne. congruence.
Qed.

Lemma optimizer_step_frame (ps : list nat) :
  forall (idx : nat) (a : A) (h : store) (i : nat),
  frame <$> (optimizer_step A adam_update idx ps a h).2 !! i = frame <$> h !! i.
Proof.
  induction ps as [|p ps IH]; intros idx a h i; cbn [optimizer_step]; [reflexivity|].
  destruct (h !! p) as [o|] eqn:Hp; [|now apply IH].
  destruct (grad o) as [g|] eqn:Hg; [|now apply IH].
  destruct (adam_update a idx (data (val o)) g) as [a' d'].
  rewrite IH. destruct (decide (p = i)) as [->|Hne].
  - rewrite lookup_insert_eq, Hp. cbn. unfold frame. cbn. now rewrite Hg.
  - now rewrite lookup_insert_ne by exact Hne.
Qed.

(** An object of shape [s] that has a gradient. *)
Definition ready (h : store) (id : nat) (s : list nat) : Prop :=
  exists o g, h !! id = Some o /\ shape (val o) = s /\ grad o = Some g.

Lemma ready_backward (h : store) (id : nat) (g : list Q) (o : tobj) :
  h !! id = Some o -> ready (backward_into id g h) id (shape (val o)).
Proof.
  intros Ho. unfold ready, backward_into. rewrite lookup_alter_eq, Ho. cbn.
  eauto.
Qed.

Lemma ready_backward_other (h : store) (id id' : nat) (g : list Q) (s : list nat) :
  id <> id' -> ready h id' s -> ready (backward_into id g h) id' s.
Proof.
  intros Hne (o & g' & Ho & Hs & Hg). exists o, g'.
  unfold backward_into. now rewrite lookup_alter_ne by exact Hne.
Qed.

Lemma ready_optimizer_step (adam_on : bool) (ps : list nat) (a : A) (h : store)
  (id : nat) (s : list nat) :
  ready h id s ->
  ready (if adam_on then optimizer_step A adam_update 0 ps a h else (a, h)).2 id s.
Proof.
  destruct adam_on; [|auto].
  intros (o & g & Ho & Hs & Hg).
  pose proof (optimizer_step_frame ps 0 a h id) as Hf. rewrite Ho in Hf.
  destruct ((optimizer_step A adam_update 0 ps a h).2 !! id) as [o'|] eqn:Ho';
    [|discriminate].
  cbn in Hf. unfold frame in Hf. injection Hf as Hshape Hgrad.
  exists o', g. repeat split; congruence.
Qed.

(** The sign step on a ready object succeeds; it leaves the other objects
    alone and creates the clamped tensor. *)
Lemma sign_step_and_clamp_ready (h : store) (id new : nat) (s : list nat) :
  ready h id s -> id <> new ->
  exists h' stepped,
    sign_step_and_clamp step_size id new h = Some h'
    /\ shape stepped = s
    /\ h' !! new = Some (mkObj (clamp01 stepped) None)
    /\ (forall i, i <> id -> i <> new -> h' !! i = h !! i).
Proof.
  intros (o & g & Ho & Hs & Hg) Hne. unfold sign_step_and_clamp.
  rewrite Ho. cbn. rewrite Hg. cbn.
  eexists _, (sub_sign step_size (val o) g). split; [reflexivity|].
  split; [exact Hs|]. split; [apply lookup_insert_eq|].
  intros i Hi Hi'. now rewrite !lookup_insert_ne by congruence.
Qed.

(** Two stores that hold the same objects outside [ps]. *)
Definition agree_off (ps : list nat) (h h' : store) : Prop :=
  forall i, i ∉ ps -> h !! i = h' !! i.

Lemma agree_off_zero_grad (ps : list nat) (h h' : store) :
  agree_off ps h h' ->
  agree_off ps (zero_grad set_to_none ps h) (zero_grad set_to_none ps h').
Proof.
  intros Hoff i Hi. rewrite !zero_grad_off by exact Hi. now apply Hoff.
Qed.

Lemma agree_off_backward (ps : list nat) (id : nat) (g : list Q) (h h' : store) :
  agree_off ps h h' ->
  agree_off ps (backward_into id g h) (backward_into id g h').
Proof.
  intros Hoff i Hi. unfold backward_into.
  destruct (decide (id = i)) as [->|Hne].
  - rewrite !lookup_alter_eq. now rewrite Hoff.
  - rewrite !lookup_alter_ne by exact Hne. now apply Hoff.
Qed.

(** [optimizer.step()] only touches the registered objects, so running it
    or not makes no difference outside them. *)
Lemma agree_off_optimizer (ps : list nat) (b b' : bool) (a a' : A) (h h' : store) :
  agree_off ps h h' ->
  agree_off ps (if b then optimizer_step A adam_update 0 ps a h else (a, h)).2
               (if b' then optimizer_step A adam_update 0 ps a' h' else (a', h')).2.
Proof.
  intros Hoff i Hi.
  destruct b, b'; cbn [snd]; rewrite ?optimizer_step_off by exact Hi; now apply Hoff.
Qed.

Lemma agree_off_sign_step (ps : list nat) (id new : nat) (h h' k k' : store) :
  agree_off ps h h' ->
  id ∉ ps ->
  sign_step_and_clamp step_size id new h = Some k ->
  sign_step_and_clamp step_size id new h' = Some k' ->
  agree_off ps k k'.
Proof.
  intros Hoff Hid Hk Hk'. unfold sign_step_and_clamp in Hk, Hk'.
  rewrite <- (Hoff id Hid) in Hk'.
  destruct (h !! id) as [o|]; [|discriminate]. cbn in Hk, Hk'.
  destruct (grad o) as [g|]; [|discriminate]. cbn in Hk, Hk'.
  injection Hk as <-. injection Hk' as <-.
  intros i Hi.
  destruct (decide (new = i)) as [->|Hnew]; [now rewrite !lookup_insert_eq|].
  rewrite !(lookup_insert_ne _ new) by exact Hnew.
  destruct (decide (id = i)) as [->|Hne]; [now rewrite !lookup_insert_eq|].
  rewrite !lookup_insert_ne by exact Hne. now apply Hoff.
Qed.

End Store.

(** *** One update *)

(** The shapes of [mask] and [trigger] for [self.dim]. *)
Definition mask_shape (dim : nat * nat * nat * nat) : list nat :=
  let '(_, _, d2, d3) := dim in [d2; d3].

Definition trigger_shape (dim : nat * nat * nat * nat) : list nat :=
  let '(d0, d1, d2, d3) := dim in [d0; d1; d2; d3].

(** What the update of batch [x] leaves behind. *)
Definition snap_ok (dim : nat * nat * nat * nat) (x : batch) (s : snapshot) : Prop :=
  exp_mask_shape s = 1 :: channels x :: mask_shape dim
  /\ shape (mask_after s) = mask_shape dim
  /\ unit_interval (mask_after s)
  /\ unit_interval (trigger_after s).

(** The batches of a run, in the order they are visited. *)
Definition all_batches (data_loader : nat -> list batch) (i n : nat) : list batch :=
  concat (map data_loader (seq i n)).

Section Update.

Variable A : Type.
Variable adam_update : A -> nat -> list Q -> list Q -> A * list Q.
Variable loss_grads : tensor -> batch -> tensor -> tensor -> Z -> list Q * list Q.
Variable set_to_none : bool.
Variable dim : nat * nat * nat * nat.
Variable step_size : Q.

Local Abbreviation update_of :=
  (update A adam_update loss_grads set_to_none step_size).

(** The variables [mask] and [trigger] name two distinct objects of the
    shapes of [self.dim]; objects are created at fresh identities. *)
Definition Inv (st : state A) : Prop :=
  (exists m, heap st !! mask st = Some m /\ shape (val m) = mask_shape dim)
  /\ (exists t, heap st !! trigger st = Some t /\ shape (val t) = trigger_shape dim)
  /\ mask st <> trigger st
  /\ mask st < next st
  /\ trigger st < next st
  /\ Forall (fun p => p < next st) (params st).

Lemma update_inv (adam_on : bool) (c_t : Z) (x : batch) (st : state A) :
  Inv st ->
  exists st' s,
    update_of adam_on c_t x st = Some st'
    /\ Inv st'
    /\ history st' = history st ++ [s]
    /\ snap_ok dim x s
    /\ mask st' = next st
    /\ trigger st' = S (next st)
    /\ params st' = params st
    /\ updates st' = S (updates st)
    /\ next st' = S (S (next st))
    /\ heap st' !! mask st' = Some (mkObj (mask_after s) None)
    /\ heap st' !! trigger st' = Some (mkObj (trigger_after s) None).
Proof.
  intros ((m & Hm & Hms) & (t & Ht & Hts) & Hne & Hml & Htl & Hps).
  unfold update. rewrite Hm, Ht. cbn [mbind option_bind].
  assert (Hrep : repeat3d (channels x) (val m)
                 = Some (mkTensor (channels x :: mask_shape dim)
                           (concat (repeat (data (val m)) (channels x))))).
  { destruct dim as [[[d0 d1] d2] d3]. cbn in Hms |- *.
    now apply repeat3d_matrix. }
  rewrite Hrep. cbn [mbind option_bind].
  destruct (loss_grads _ _ _ _ _) as [g_mask g_trigger].
  set (h1 := zero_grad set_to_none (params st) (heap st)).
  assert (Hm1 : exists m1, h1 !! mask st = Some m1 /\ val m1 = val m).
  { pose proof (zero_grad_val set_to_none (params st) (heap st) (mask st)) as Hv.
    fold h1 in Hv. rewrite Hm in Hv.
    destruct (h1 !! mask st) as [m1|]; [|discriminate].
    exists m1. split; [reflexivity|]. now injection Hv. }
  assert (Ht1 : exists t1, h1 !! trigger st = Some t1 /\ val t1 = val t).
  { pose proof (zero_grad_val set_to_none (params st) (heap st) (trigger st)) as Hv.
    fold h1 in Hv. rewrite Ht in Hv.
    destruct (h1 !! trigger st) as [t1|]; [|discriminate].
    exists t1. split; [reflexivity|]. now injection Hv. }
  destruct Hm1 as (m1 & Hm1 & Hvm). destruct Ht1 as (t1 & Ht1 & Hvt).
  set (h3 := backward_into (trigger st) g_trigger (backward_into (mask st) g_mask h1)).
  assert (Hrm : ready h3 (mask st) (mask_shape dim)).
  { apply ready_backward_other; [congruence|].
    rewrite <- Hms, <- Hvm. now apply ready_backward. }
  assert (Hrt : ready h3 (trigger st) (trigger_shape dim)).
  { rewrite <- Hts, <- Hvt. apply ready_backward.
    unfold backward_into. now rewrite lookup_alter_ne by exact Hne. }
  pose proof (ready_optimizer_step A adam_update adam_on (params st) (adam st) h3
                _ _ Hrm) as Hrm4.
  pose proof (ready_optimizer_step A adam_update adam_on (params st) (adam st) h3
                _ _ Hrt) as Hrt4.
  destruct (if adam_on then _ else _) as [a h4]. cbn [snd] in Hrm4, Hrt4.
  destruct (sign_step_and_clamp_ready step_size h4 (mask st) (next st) _ Hrm4)
    as (h5 & sm & Hh5 & Hsm & Hnew5 & Hoff5); [lia|].
  rewrite Hh5. cbn [mbind option_bind].
  assert (Hrt5 : ready h5 (trigger st) (trigger_shape dim)).
  { destruct Hrt4 as (o & g & Ho & Hs & Hg). exists o, g.
    rewrite Hoff5 by (congruence || lia). auto. }
  destruct (sign_step_and_clamp_ready step_size h5 (trigger st) (S (next st)) _ Hrt5)
    as (h6 & stt & Hh6 & Hstt & Hnew6 & Hoff6); [lia|].
  rewrite Hh6. cbn [mbind option_bind].
  assert (Hnew5' : h6 !! next st = Some (mkObj (clamp01 sm) None)).
  { rewrite Hoff6 by lia. exact Hnew5. }
  rewrite Hnew5', Hnew6. cbn [mbind option_bind val].
  eexists _, _. split; [reflexivity|].
  cbn [heap next mask trigger params updates history
       exp_mask_shape mask_after trigger_after].
  split.
  { unfold Inv. cbn [heap next mask trigger params]. split_and!.
    - exists (mkObj (clamp01 sm) None). split; [exact Hnew5'|]. exact Hsm.
    - exists (mkObj (clamp01 stt) None). split; [exact Hnew6|]. exact Hstt.
    - lia.
    - lia.
    - lia.
    - eapply Forall_impl; [exact Hps|]. cbn. intros p Hp. lia. }
  split; [reflexivity|].
  split.
  { unfold snap_ok. cbn [exp_mask_shape mask_after trigger_after]. split_and!.
    - reflexivity.
    - exact Hsm.
    - apply clamp01_unit_interval.
    - apply clamp01_unit_interval. }
  split_and!; (reflexivity || assumption).
Qed.

(** Two states whose variables name the same objects and whose stores
    differ at most on the registered objects (and in Adam's state). *)
Definition agree (st1 st2 : state A) : Prop :=
  next st1 = next st2
  /\ mask st1 = mask st2
  /\ trigger st1 = trigger st2
  /\ params st1 = params st2
  /\ updates st1 = updates st2
  /\ history st1 = history st2
  /\ agree_off (params st1) (heap st1) (heap st2).

(** The variables name objects that the optimizer does not hold. *)
Definition detached (st : state A) : Prop :=
  (mask st ∉ params st) /\ (trigger st ∉ params st).

Lemma agree_refl (st : state A) : agree st st.
Proof. unfold agree, agree_off. auto 10. Qed.

(** From detached variables, an update gives the same objects outside the
    registered ones whether [optimizer.step()] runs or not. *)
Lemma update_agree (b1 b2 : bool) (c_t : Z) (x : batch)
  (st1 st2 st1' st2' : state A) :
  agree st1 st2 ->
  detached st1 ->
  Forall (fun p => p < next st1) (params st1) ->
  update_of b1 c_t x st1 = Some st1' ->
  update_of b2 c_t x st2 = Some st2' ->
  agree st1' st2'.
Proof.
  intros (Hn & Hm & Ht & Hp & Hu & Hh & Hoff) [Hdm Hdt] Hfresh H1 H2.
  assert (Hnew : forall k, next st1 <= k -> k ∉ params st1).
  { intros k Hk Hin. rewrite Forall_forall in Hfresh.
    specialize (Hfresh k Hin). lia. }
  unfold update in H1, H2.
  rewrite <- Hn, <- Hm, <- Ht, <- Hp, <- Hu, <- Hh in H2.
  rewrite <- (Hoff (mask st1) Hdm), <- (Hoff (trigger st1) Hdt) in H2.
  destruct (heap st1 !! mask st1) as [m|]; [|discriminate].
  destruct (heap st1 !! trigger st1) as [t|]; [|discriminate].
  cbn [mbind option_bind] in H1, H2.
  destruct (repeat3d (channels x) (val m)) as [r|]; [|discriminate].
  cbn [mbind option_bind] in H1, H2.
  destruct (loss_grads _ _ _ _ _) as [g_mask g_trigger].
  pose proof (agree_off_optimizer A adam_update (params st1) b1 b2 (adam st1) (adam st2)
    _ _ (agree_off_backward (params st1) (trigger st1) g_trigger _ _
           (agree_off_backward (params st1) (mask st1) g_mask _ _
              (agree_off_zero_grad set_to_none (params st1) _ _ Hoff)))) as Hoff4.
  destruct (if b1 then _ else _) as [a1 h4]. destruct (if b2 then _ else _) as [a2 h4'].
  cbn [snd] in Hoff4.
  destruct (sign_step_and_clamp step_size (mask st1) (next st1) h4) as [h5|] eqn:E5;
    [|discriminate].
  destruct (sign_step_and_clamp step_size (mask st1) (next st1) h4') as [h5'|] eqn:E5';
    [|discriminate].
  cbn [mbind option_bind] in H1, H2.
  pose proof (agree_off_sign_step step_size _ _ _ _ _ _ _ Hoff4 Hdm E5 E5') as Hoff5.
  destruct (sign_step_and_clamp step_size (trigger st1) (S (next st1)) h5) as [h6|] eqn:E6;
    [|discriminate].
  destruct (sign_step_and_clamp step_size (trigger st1) (S (next st1)) h5') as [h6'|] eqn:E6';
    [|discriminate].
  cbn [mbind option_bind] in H1, H2.
  pose proof (agree_off_sign_step step_size _ _ _ _ _ _ _ Hoff5 Hdt E6 E6') as Hoff6.
  rewrite <- (Hoff6 (next st1)) in H2 by (apply Hnew; lia).
  rewrite <- (Hoff6 (S (next st1))) in H2 by (apply Hnew; lia).
  destruct (h6 !! next st1) as [m'|]; [|discriminate].
  destruct (h6 !! S (next st1)) as [t'|]; [|discriminate].
  cbn [mbind option_bind] in H1, H2.
  injection H1 as <-. injection H2 as <-.
  unfold agree. cbn [heap next mask trigger params updates history].
  split_and!; try reflexivity. exact Hoff6.
Qed.

End Update.

(** *** The two loops *)

Section Runs.

Variable A : Type.
Variable adam_init : A.
Variable adam_update : A -> nat -> list Q -> list Q -> A * list Q.
Variable loss_grads : tensor -> batch -> tensor -> tensor -> Z -> list Q * list Q.
Variable rand : nat -> Q.
Variable set_to_none : bool.
Variable dim : nat * nat * nat * nat.
Variable step_size : Q.

Local Abbreviation batches_of :=
  (run_batches A adam_update loss_grads set_to_none step_size).
Local Abbreviation iters_of :=
  (run_iters A adam_update loss_grads set_to_none step_size).

(** The variables name the tensors of the last snapshot. *)
Definition tracked (st : state A) : Prop :=
  forall s, last (history st) = Some s ->
    heap st !! mask st = Some (mkObj (mask_after s) None)
    /\ heap st !! trigger st = Some (mkObj (trigger_after s) None).

(** After the first update the variables are detached from the optimizer. *)
Definition detached_after_first (st : state A) : Prop :=
  0 < updates st -> detached A st.

Definition good (st : state A) : Prop :=
  Inv A dim st /\ tracked st /\ detached_after_first st.

Lemma update_good (adam_on : bool) (c_t : Z) (x : batch) (st : state A) :
  good st ->
  exists st' s,
    update A adam_update loss_grads set_to_none step_size adam_on c_t x st = Some st'
    /\ good st'
    /\ history st' = history st ++ [s]
    /\ snap_ok dim x s
    /\ params st' = params st
    /\ updates st' = S (updates st).
Proof.
  intros (Hinv & _ & _).
  destruct (update_inv A adam_update loss_grads set_to_none dim step_size
              adam_on c_t x st Hinv)
    as (st' & s & Hup & Hinv' & Hhist & Hsnap & Hmask & Htrig & Hps & Hupd & Hnext
        & Hhm & Hht).
  exists st', s. split_and!; try assumption.
  split_and!; [exact Hinv' | |].
  - intros s' Hs'. rewrite Hhist, last_snoc in Hs'. injection Hs' as <-. now split.
  - intros _. destruct Hinv as (_ & _ & _ & _ & _ & Hfresh).
    rewrite Forall_forall in Hfresh.
    unfold detached. rewrite Hmask, Htrig, Hps.
    split; intros Hin; apply Hfresh in Hin; lia.
Qed.

Section Policy.

Variable adam_on : nat -> bool.

Lemma run_batches_good (c_t : Z) (batches : list batch) :
  forall st : state A,
  good st ->
  exists st' snaps,
    batches_of adam_on c_t batches st = Some st'
    /\ good st'
    /\ history st' = history st ++ snaps
    /\ Forall2 (snap_ok dim) batches snaps
    /\ params st' = params st
    /\ updates st' = updates st + length batches.
Proof.
  induction batches as [|x rest IH]; intros st Hgood; cbn [run_batches].
  - exists st, []. rewrite app_nil_r, Nat.add_0_r. split_and!; auto.
  - destruct (update_good (adam_on (updates st)) c_t x st Hgood)
      as (st1 & s & Hup & Hgood1 & Hhist1 & Hsnap & Hps1 & Hupd1).
    rewrite Hup.
    destruct (IH st1 Hgood1) as (st' & snaps & Hrun & Hgood' & Hhist' & Hsnaps & Hps' & Hupd').
    exists st', (s :: snaps). split_and!.
    + exact Hrun.
    + exact Hgood'.
    + rewrite Hhist', Hhist1, <- app_assoc. reflexivity.
    + now constructor.
    + congruence.
    + rewrite Hupd', Hupd1. cbn [length]. lia.
Qed.

Lemma run_iters_good (c_t : Z) (data_loader : nat -> list batch) (n : nat) :
  forall (i : nat) (st : state A),
  good st ->
  exists st' snaps,
    iters_of adam_on c_t data_loader i n st = Some st'
    /\ good st'
    /\ history st' = history st ++ snaps
    /\ Forall2 (snap_ok dim) (all_batches data_loader i n) snaps
    /\ params st' = params st
    /\ updates st' = updates st + length (all_batches data_loader i n).
Proof.
  induction n as [|n IH]; intros i st Hgood; cbn [run_iters].
  - exists st, []. rewrite app_nil_r. unfold all_batches. cbn.
    rewrite Nat.add_0_r. split_and!; auto.
  - destruct (run_batches_good c_t (data_loader i) st Hgood)
      as (st1 & snaps1 & Hrun1 & Hgood1 & Hhist1 & Hsnaps1 & Hps1 & Hupd1).
    rewrite Hrun1.
    destruct (IH (S i) st1 Hgood1)
      as (st' & snaps & Hrun & Hgood' & Hhist' & Hsnaps & Hps' & Hupd').
    exists st', (snaps1 ++ snaps). split_and!.
    + exact Hrun.
    + exact Hgood'.
    + rewrite Hhist', Hhist1, <- app_assoc. reflexivity.
    + unfold all_batches in *. cbn [seq map concat]. now apply Forall2_app.
    + congruence.
    + rewrite Hupd', Hupd1. unfold all_batches. cbn [seq map concat].
      rewrite length_app. lia.
Qed.

End Policy.

Lemma mask_init_shape : shape (mask_init rand dim) = mask_shape dim.
Proof. unfold mask_init, mask_shape. now destruct dim as [[[d0 d1] d2] d3]. Qed.

Lemma trigger_init_shape : shape (trigger_init rand dim) = trigger_shape dim.
Proof. unfold trigger_init, trigger_shape. now destruct dim as [[[d0 d1] d2] d3]. Qed.

Lemma init_good : good (init A adam_init rand dim).
Proof.
  unfold good, Inv, tracked, detached_after_first, init.
  cbn [heap next mask trigger params updates history].
  split_and!.
  - exists (mkObj (mask_init rand dim) None). split; [reflexivity | apply mask_init_shape].
  - exists (mkObj (trigger_init rand dim) None).
    split; [reflexivity | apply trigger_init_shape].
  - lia.
  - lia.
  - lia.
  - repeat constructor.
  - intros s Hs. discriminate.
  - lia.
Qed.

(** *** Running Adam at every update, or at the first one only *)

(** The two runs are in the same state before the first update, and agree
    outside the registered objects afterwards. *)
Definition related (st1 st2 : state A) : Prop :=
  (st1 = st2 /\ updates st1 = 0) \/ (agree A st1 st2 /\ 0 < updates st1).

Lemma update_related (c_t : Z) (x : batch) (st1 st2 st1' st2' : state A) :
  good st1 ->
  related st1 st2 ->
  update A adam_update loss_grads set_to_none step_size true c_t x st1 = Some st1' ->
  update A adam_update loss_grads set_to_none step_size (updates st2 =? 0) c_t x st2
  = Some st2' ->
  related st1' st2' /\ good st1' /\ (good st2 -> good st2').
Proof.
  intros Hgood Hrel H1 H2.
  destruct (update_good true c_t x st1 Hgood)
    as (st & s & Hup & Hgood' & _ & _ & _ & Hupd).
  rewrite H1 in Hup. injection Hup as <-.
  split; [|split; [exact Hgood'|]].
  - right. split; [|lia].
    destruct Hrel as [[<- Hzero]|[Hagree Hpos]].
    + rewrite Hzero in H2. cbn [Nat.eqb] in H2. rewrite H1 in H2.
      injection H2 as <-. apply agree_refl.
    + destruct Hgood as (Hinv & _ & Hdet).
      destruct Hinv as (_ & _ & _ & _ & _ & Hfresh).
      exact (update_agree A adam_update loss_grads set_to_none step_size
               true (updates st2 =? 0) c_t x st1 st2 st1' st2'
               Hagree (Hdet Hpos) Hfresh H1 H2).
  - intros Hgood2.
    destruct (update_good (updates st2 =? 0) c_t x st2 Hgood2)
      as (st & s2 & Hup2 & Hgood2' & _).
    rewrite H2 in Hup2. now injection Hup2 as <-.
Qed.

Lemma run_batches_related (c_t : Z) (batches : list batch) :
  forall st1 st2 st1' st2' : state A,
  good st1 -> good st2 ->
  related st1 st2 ->
  batches_of (fun _ => true) c_t batches st1 = Some st1' ->
  batches_of (fun k => k =? 0) c_t batches st2 = Some st2' ->
  related st1' st2' /\ good st1' /\ good st2'.
Proof.
  induction batches as [|x rest IH]; intros st1 st2 st1' st2' Hg1 Hg2 Hrel H1 H2;
    cbn [run_batches] in H1, H2.
  - injection H1 as <-. injection H2 as <-. auto.
  - destruct (update _ _ _ _ _ true c_t x st1) as [s1|] eqn:E1; [|discriminate].
    destruct (update _ _ _ _ _ (updates st2 =? 0) c_t x st2) as [s2|] eqn:E2;
      [|discriminate].
    destruct (update_related c_t x st1 st2 s1 s2 Hg1 Hrel E1 E2) as (Hrel' & Hg1' & Hg2').
    exact (IH s1 s2 st1' st2' Hg1' (Hg2' Hg2) Hrel' H1 H2).
Qed.

Lemma run_iters_related (c_t : Z) (data_loader : nat -> list batch) (n : nat) :
  forall (i : nat) (st1 st2 st1' st2' : state A),
  good st1 -> good st2 ->
  related st1 st2 ->
  iters_of (fun _ => true) c_t data_loader i n st1 = Some st1' ->
  iters_of (fun k => k =? 0) c_t data_loader i n st2 = Some st2' ->
  related st1' st2' /\ good st1' /\ good st2'.
Proof.
  induction n as [|n IH]; intros i st1 st2 st1' st2' Hg1 Hg2 Hrel H1 H2;
    cbn [run_iters] in H1, H2.
  - injection H1 as <-. injection H2 as <-. auto.
  - destruct (run_batches _ _ _ _ _ (fun _ => true) c_t (data_loader i) st1)
      as [s1|] eqn:E1; [|discriminate].
    destruct (run_batches _ _ _ _ _ (fun k => k =? 0) c_t (data_loader i) st2)
      as [s2|] eqn:E2; [|discriminate].
    destruct (run_batches_related c_t (data_loader i) st1 st2 s1 s2 Hg1 Hg2 Hrel E1 E2)
      as (Hrel' & Hg1' & Hg2').
    exact (IH (S i) s1 s2 st1' st2' Hg1' Hg2' Hrel' H1 H2).
Qed.

(** Related states give the same result. *)
Lemma related_result (st1 st2 : state A) :
  good st1 ->
  related st1 st2 ->
  heap st1 !! mask st1 = heap st2 !! mask st2
  /\ heap st1 !! trigger st1 = heap st2 !! trigger st2.
Proof.
  intros (_ & _ & Hdet) [[<- _]|[Hagree Hpos]]; [now split|].
  destruct (Hdet Hpos) as [Hm Ht].
  destruct Hagree as (_ & <- & <- & _ & _ & _ & Hoff).
  split; now apply Hoff.
Qed.

(** A pass over an empty loader leaves the state as it is. *)
Lemma run_iters_no_batch (adam_on : nat -> bool) (c_t : Z)
  (data_loader : nat -> list batch) (n : nat) :
  (forall i, data_loader i = []) ->
  forall (i : nat) (st : state A),
  iters_of adam_on c_t data_loader i n st = Some st.
Proof.
  intros Hempty. induction n as [|n IH]; intros i st; cbn [run_iters]; [reflexivity|].
  rewrite Hempty. cbn [run_batches]. apply IH.
Qed.

End Runs.

(** *** A whole call *)

Section Call.

Variable A : Type.
Variable adam_init : A.
Variable adam_update : A -> nat -> list Q -> list Q -> A * list Q.
Variable loss_grads : tensor -> batch -> tensor -> tensor -> Z -> list Q * list Q.
Variable rand : nat -> Q.
Variable set_to_none : bool.
Variable dim : nat * nat * nat * nat.
Variable step_size : Q.
Variable niters : nat.

Local Abbreviation optimize_of :=
  (optimize A adam_init adam_update loss_grads rand set_to_none dim step_size niters).
Local Abbreviation find_of :=
  (find_with A adam_init adam_update loss_grads rand set_to_none dim step_size niters).

(** The two loops run to their end, whatever the policy, and the call
    returns the mask named by [mask], tiled three times, and the tensor
    named by [trigger]. *)
Lemma call_returns (adam_on : nat -> bool) (c_t : Z) (data_loader : nat -> list batch) :
  exists st m t,
    optimize_of adam_on c_t data_loader = Some st
    /\ good A dim st
    /\ Forall2 (snap_ok dim) (all_batches data_loader 0 niters) (history st)
    /\ params st = [0; 1]
    /\ updates st = length (all_batches data_loader 0 niters)
    /\ heap st !! mask st = Some m
    /\ heap st !! trigger st = Some t
    /\ shape (val m) = mask_shape dim
    /\ find_of adam_on c_t data_loader
       = Some (mkTensor (3 :: mask_shape dim) (concat (repeat (data (val m)) 3)), val t).
Proof.
  destruct (run_iters_good A adam_update loss_grads set_to_none dim step_size
              adam_on c_t data_loader niters 0 (init A adam_init rand dim)
              (init_good A adam_init rand dim))
    as (st & snaps & Hrun & Hgood & Hhist & Hsnaps & Hps & Hupd).
  pose proof Hgood as (((m & Hm & Hms) & (t & Ht & Hts) & _) & _).
  exists st, m, t. unfold find_with, optimize. rewrite Hrun.
  cbn [mbind option_bind]. rewrite Hm, Ht. cbn [mbind option_bind].
  assert (Hrep : repeat3d 3 (val m)
                 = Some (mkTensor (3 :: mask_shape dim) (concat (repeat (data (val m)) 3)))).
  { destruct dim as [[[d0 d1] d2] d3]. cbn in Hms |- *. now apply repeat3d_matrix. }
  rewrite Hrep. cbn [mbind option_bind].
  unfold init in Hhist, Hps, Hupd. cbn [history params updates app Nat.add] in Hhist, Hps, Hupd.
  rewrite Hhist. split_and!; auto.
Qed.

(** Without any update the state is the initial one. *)
Lemma optimize_no_update (adam_on : nat -> bool) (c_t : Z)
  (data_loader : nat -> list batch) :
  niters = 0 \/ (forall i, data_loader i = []) ->
  optimize_of adam_on c_t data_loader = Some (init A adam_init rand dim).
Proof.
  unfold optimize. intros [-> | Hempty]; [reflexivity|].
  now apply run_iters_no_batch.
Qed.

(** The run with Adam at every update and the run with Adam at the first
    update only return the same tensors. *)
Lemma adam_after_first_is_idle (c_t : Z) (data_loader : nat -> list batch) :
  find_of (fun _ => true) c_t data_loader = find_of (fun k => k =? 0) c_t data_loader.
Proof.
  destruct (call_returns (fun _ => true) c_t data_loader)
    as (st1 & m1 & t1 & Hrun1 & Hgood1 & _ & _ & _ & Hm1 & Ht1 & _ & Hfind1).
  destruct (call_returns (fun k => k =? 0) c_t data_loader)
    as (st2 & m2 & t2 & Hrun2 & Hgood2 & _ & _ & _ & Hm2 & Ht2 & _ & Hfind2).
  rewrite Hfind1, Hfind2.
  assert (Hrel : related A st1 st2 /\ good A dim st1 /\ good A dim st2).
  { apply (run_iters_related A adam_update loss_grads set_to_none dim step_size
             c_t data_loader niters 0 (init A adam_init rand dim)
             (init A adam_init rand dim) st1 st2);
      try apply init_good; try assumption.
    left. split; reflexivity. }
  destruct Hrel as (Hrel & _ & _).
  destruct (related_result A dim st1 st2 Hgood1 Hrel) as [Hm Ht].
  rewrite Hm1, Hm2 in Hm. rewrite Ht1, Ht2 in Ht.
  injection Hm as ->. injection Ht as ->. reflexivity.
Qed.

End Call.

(** *** The properties of the specification *)


(** C8.  With [niters = 0], or with a loader that yields no batch, the call
    returns the initial random mask tiled three times along a new first
    dimension, and the initial random trigger. *)
Theorem find_without_update_returns_init
  (A : Type) (adam_init : A)
  (adam_update : A -> nat -> list Q -> list Q -> A * list Q)
  (loss_grads : tensor -> batch -> tensor -> tensor -> Z -> list Q * list Q)
  (rand : nat -> Q) (set_to_none : bool) (dim : nat * nat * nat * nat)
  (step_size : Q) (niters : nat) (c_t : Z) (data_loader : nat -> list batch) :
  niters = 0 \/ (forall i, data_loader i = []) ->
  find_candidate_backdoor A adam_init adam_update loss_grads rand set_to_none dim
    step_size niters c_t data_loader
  = Some (mkTensor (3 :: shape (mask_init rand dim))
            (concat (repeat (data (mask_init rand dim)) 3)),
          trigger_init rand dim).
Proof.
  intros Hnone.
  destruct (call_returns A adam_init adam_update loss_grads rand set_to_none dim
              step_size niters (fun _ => true) c_t data_loader)
    as (st & m & t & Hrun & _ & _ & _ & _ & Hm & Ht & _ & Hfind).
  rewrite (optimize_no_update A adam_init adam_update loss_grads rand set_to_none dim
             step_size niters _ c_t data_loader Hnone) in Hrun.
  injection Hrun as <-. unfold init in Hm, Ht. cbn [heap mask trigger] in Hm, Ht.
  rewrite lookup_insert_ne, lookup_insert_eq in Hm by discriminate.
  rewrite lookup_insert_eq in Ht.
  injection Hm as <-. injection Ht as <-.
  unfold find_candidate_backdoor. rewrite Hfind. cbn [val].
  now rewrite mask_init_shape.
Qed.

Lemma find_without_update_returns_init_witness :
  find_candidate_backdoor nat 0 plain_descent pull halves true (1, 1, 1, 2)
    (1 # 10) 0 0%Z one_batch
  = Some (mkTensor (3 :: shape (mask_init halves (1, 1, 1, 2)))
            (concat (repeat (data (mask_init halves (1, 1, 1, 2))) 3)),
          trigger_init halves (1, 1, 1, 2)).
Proof.
  apply (find_without_update_returns_init nat 0 plain_descent pull halves true
           (1, 1, 1, 2) (1 # 10) 0 0%Z one_batch).
  left. reflexivity.
Defined.

(** C9.  After the first update the variables [mask] and [trigger] name
    objects that are not registered with the optimizer (the registered ones
    are the two initial tensors, objects 0 and 1), and [optimizer.step()]
    leaves every unregistered object as it is; so the call returns what the
    variant that runs [optimizer.step()] at the first update only returns. *)
Theorem adam_steps_after_first_are_idle
  (A : Type) (adam_init : A)
  (adam_update : A -> nat -> list Q -> list Q -> A * list Q)
  (loss_grads : tensor -> batch -> tensor -> tensor -> Z -> list Q * list Q)
  (rand : nat -> Q) (set_to_none : bool) (dim : nat * nat * nat * nat)
  (step_size : Q) (niters : nat) (c_t : Z) (data_loader : nat -> list batch) :
  find_candidate_backdoor A adam_init adam_update loss_grads rand set_to_none dim
    step_size niters c_t data_loader
  = find_adam_first_only A adam_init adam_update loss_grads rand set_to_none dim
      step_size niters c_t data_loader
  /\ exists st,
       optimize A adam_init adam_update loss_grads rand set_to_none dim step_size niters
         (fun _ => true) c_t data_loader = Some st
       /\ params st = [0; 1]
       /\ (0 < updates st -> (mask st ∉ params st) /\ (trigger st ∉ params st))
       /\ (forall a i, i ∉ params st ->
             (optimizer_step A adam_update 0 (params st) a (heap st)).2 !! i
             = heap st !! i).
Proof.
  split.
  - apply adam_after_first_is_idle.
  - destruct (call_returns A adam_init adam_update loss_grads rand set_to_none dim
                step_size niters (fun _ => true) c_t data_loader)
      as (st & m & t & Hrun & Hgood & _ & Hps & _).
    exists st. split; [exact Hrun|]. split; [exact Hps|]. split.
    + destruct Hgood as (_ & _ & Hdet). exact Hdet.
    + intros a i Hi. now apply optimizer_step_off.
Qed.


(** The stale tensors do move: with gradients zeroed in place, the run with
    Adam at every update steps the optimizer once per update, the variant
    once in all, and both return the same mask and trigger. *)
Example adam_runs_on_stale_tensors :
  adam <$> optimize nat 0 plain_descent pull halves false (1, 1, 1, 2) (1 # 10) 2
             (fun _ => true) 0%Z one_batch = Some 4
  /\ adam <$> optimize nat 0 plain_descent pull halves false (1, 1, 1, 2) (1 # 10) 2
                (fun k => k =? 0) 0%Z one_batch = Some 2.
Proof. split; reflexivity. Qed.

(** *** Further properties of a call *)

(** One projected sign-gradient step from the snapshot [prev] on batch [x]:
    [t <- clamp(t - step_size * sign(d loss / d t), 0, 1)] for the mask and
    the trigger, with the gradients taken at [prev]. *)
Definition sign_step_of (step_size : Q)
  (loss_grads : tensor -> batch -> tensor -> tensor -> Z -> list Q * list Q)
  (c_t : Z) (x : batch) (prev s : snapshot) : Prop :=
  exists r,
    repeat3d (channels x) (mask_after prev) = Some r
    /\ let g := loss_grads (unsqueeze0 r) x (trigger_after prev) (mask_after prev) c_t in
       mask_after s = clamp01 (sub_sign step_size (mask_after prev) (fst g))
       /\ trigger_after s = clamp01 (sub_sign step_size (trigger_after prev) (snd g)).

(** Every snapshot but the first is a sign step from the one before it. *)
Fixpoint chain_from (step : batch -> snapshot -> snapshot -> Prop)
  (prev : option snapshot) (xs : list batch) (ss : list snapshot) : Prop :=
  match xs, ss with
  | [], [] => True
  | x :: xs', s :: ss' =>
      match prev with
      | Some p => step x p s
      | None => True
      end
      /\ chain_from step (Some s) xs' ss'
  | _, _ => False
  end.

(** The snapshot that follows [ss], after [prev]. *)
Definition last_or {A : Type} (prev : option A) (ss : list A) : option A :=
  match last ss with
  | Some s => Some s
  | None => prev
  end.

Lemma chain_from_app (step : batch -> snapshot -> snapshot -> Prop)
  (xs1 xs2 : list batch) (ss2 : list snapshot) :
  forall (ss1 : list snapshot) (prev : option snapshot),
  chain_from step prev xs1 ss1 ->
  chain_from step (last_or prev ss1) xs2 ss2 ->
  chain_from step prev (xs1 ++ xs2) (ss1 ++ ss2).
Proof.
  induction xs1 as [|x xs1 IH]; intros [|s ss1] prev H1 H2; cbn in H1; try contradiction.
  - exact H2.
  - destruct H1 as [Hstep H1]. cbn [app chain_from]. split; [exact Hstep|].
    apply IH; [exact H1|].
    unfold last_or in *. destruct ss1 as [|s' ss1]; [exact H2|].
    cbn [last] in H2.
    destruct (last (s' :: ss1)) eqn:Hlast; [exact H2|].
    apply last_None in Hlast. discriminate.
Qed.

Section Exact.

Variable A : Type.
Variable adam_update : A -> nat -> list Q -> list Q -> A * list Q.
Variable loss_grads : tensor -> batch -> tensor -> tensor -> Z -> list Q * list Q.
Variable set_to_none : bool.
Variable dim : nat * nat * nat * nat.
Variable step_size : Q.

Local Abbreviation update_of :=
  (update A adam_update loss_grads set_to_none step_size).
Local Abbreviation batches_of :=
  (run_batches A adam_update loss_grads set_to_none step_size).
Local Abbreviation iters_of :=
  (run_iters A adam_update loss_grads set_to_none step_size).

Lemma sign_step_and_clamp_exact (h : store) (id new : nat) (v : tensor) (g : list Q) :
  h !! id = Some (mkObj v (Some g)) ->
  sign_step_and_clamp step_size id new h
  = Some (<[new := mkObj (clamp01 (sub_sign step_size v g)) None]>
            (<[id := mkObj (sub_sign step_size v g) (Some g)]> h)).
Proof. intros Hid. unfold sign_step_and_clamp. now rewrite Hid. Qed.

(** An update from variables that name unregistered tensors without
    gradient: whatever Adam does, the new tensors are the sign step of the
    old ones. *)
Lemma update_detached (adam_on : bool) (c_t : Z) (x : batch) (st : state A)
  (vm vt r : tensor) :
  heap st !! mask st = Some (mkObj vm None) ->
  heap st !! trigger st = Some (mkObj vt None) ->
  mask st ∉ params st ->
  trigger st ∉ params st ->
  mask st <> trigger st ->
  mask st < next st ->
  trigger st < next st ->
  repeat3d (channels x) vm = Some r ->
  exists st',
    update_of adam_on c_t x st = Some st'
    /\ history st'
       = history st
         ++ [mkSnapshot (shape (unsqueeze0 r))
               (clamp01 (sub_sign step_size vm
                           (fst (loss_grads (unsqueeze0 r) x vt vm c_t))))
               (clamp01 (sub_sign step_size vt
                           (snd (loss_grads (unsqueeze0 r) x vt vm c_t))))].
Proof.
  intros Hm Ht Hdm Hdt Hne Hml Htl Hrep.
  unfold update. rewrite Hm, Ht. cbn [mbind option_bind val]. rewrite Hrep.
  cbn [mbind option_bind].
  destruct (loss_grads _ _ _ _ _) as [g_mask g_trigger]. cbn [fst snd].
  set (h3 := backward_into (trigger st) g_trigger
               (backward_into (mask st) g_mask
                  (zero_grad set_to_none (params st) (heap st)))).
  assert (Hm3 : h3 !! mask st = Some (mkObj vm (Some g_mask))).
  { unfold h3, backward_into. rewrite lookup_alter_ne by congruence.
    rewrite lookup_alter_eq, zero_grad_off, Hm by exact Hdm. reflexivity. }
  assert (Ht3 : h3 !! trigger st = Some (mkObj vt (Some g_trigger))).
  { unfold h3, backward_into. rewrite lookup_alter_eq.
    rewrite lookup_alter_ne by exact Hne.
    rewrite zero_grad_off, Ht by exact Hdt. reflexivity. }
  assert (Hoff : forall i, i ∉ params st ->
            (if adam_on then optimizer_step A adam_update 0 (params st) (adam st) h3
             else (adam st, h3)).2 !! i = h3 !! i).
  { intros i Hi. destruct adam_on; [now apply optimizer_step_off | reflexivity]. }
  destruct (if adam_on then _ else _) as [a h4]. cbn [snd] in Hoff.
  rewrite (sign_step_and_clamp_exact h4 (mask st) (next st) vm g_mask)
    by (rewrite Hoff by exact Hdm; exact Hm3).
  cbn [mbind option_bind].
  rewrite (sign_step_and_clamp_exact _ (trigger st) (S (next st)) vt g_trigger).
  2:{ rewrite !lookup_insert_ne by (congruence || lia).
      rewrite Hoff by exact Hdt. exact Ht3. }
  cbn [mbind option_bind].
  rewrite (lookup_insert_ne _ (S (next st)) (next st)) by lia.
  rewrite (lookup_insert_ne _ (trigger st) (next st)) by lia.
  rewrite !lookup_insert_eq. cbn [mbind option_bind val].
  eexists. split; reflexivity.
Qed.

(** The two nested loops are one loop over the batches of all passes. *)
Lemma run_batches_app (adam_on : nat -> bool) (c_t : Z) (l1 l2 : list batch) :
  forall st : state A,
  batches_of adam_on c_t (l1 ++ l2) st
  = batches_of adam_on c_t l1 st ≫= batches_of adam_on c_t l2.
Proof.
  induction l1 as [|x l1 IH]; intros st; cbn [app run_batches]; [reflexivity|].
  destruct (update_of _ c_t x st) as [st'|]; [apply IH | reflexivity].
Qed.

Lemma run_iters_flat (adam_on : nat -> bool) (c_t : Z)
  (data_loader : nat -> list batch) (n : nat) :
  forall (i : nat) (st : state A),
  iters_of adam_on c_t data_loader i n st
  = batches_of adam_on c_t (all_batches data_loader i n) st.
Proof.
  induction n as [|n IH]; intros i st; cbn [run_iters]; [reflexivity|].
  unfold all_batches. cbn [seq map concat]. rewrite run_batches_app.
  destruct (batches_of adam_on c_t (data_loader i) st) as [st'|]; [|reflexivity].
  cbn [mbind option_bind]. apply IH.
Qed.

(** The number of updates is the number of snapshots. *)
Definition synced (st : state A) : Prop := updates st = length (history st).

Lemma update_chain (adam_on : bool) (c_t : Z) (x : batch) (st : state A) :
  good A dim st -> synced st ->
  exists st' s,
    update_of adam_on c_t x st = Some st'
    /\ history st' = history st ++ [s]
    /\ (forall prev, last (history st) = Some prev ->
          sign_step_of step_size loss_grads c_t x prev s)
    /\ good A dim st' /\ synced st'.
Proof.
  intros Hgood Hsync.
  destruct (update_good A adam_update loss_grads set_to_none dim step_size
              adam_on c_t x st Hgood)
    as (st' & s & Hup & Hgood' & Hhist & _ & _ & Hupd).
  exists st', s. split; [exact Hup|]. split; [exact Hhist|].
  split; [|split; [exact Hgood'|]].
  - intros prev Hlast.
    destruct Hgood as (Hinv & Htracked & Hdet).
    destruct (Htracked prev Hlast) as [Hm Ht].
    assert (Hpos : 0 < updates st).
    { rewrite Hsync. destruct (history st); [discriminate | cbn; lia]. }
    destruct (Hdet Hpos) as [Hdm Hdt].
    destruct Hinv as ((m & Hm' & Hms) & _ & Hne & Hml & Htl & _).
    rewrite Hm in Hm'. injection Hm' as <-. cbn [val] in Hms.
    assert (Hrep : exists r, repeat3d (channels x) (mask_after prev) = Some r).
    { destruct dim as [[[d0 d1] d2] d3]. cbn in Hms.
      rewrite (repeat3d_matrix _ d2 d3) by exact Hms. eauto. }
    destruct Hrep as [r Hrep].
    destruct (update_detached adam_on c_t x st _ _ r Hm Ht Hdm Hdt Hne Hml Htl Hrep)
      as (st'' & Hup' & Hhist').
    rewrite Hup in Hup'. injection Hup' as <-.
    rewrite Hhist in Hhist'. apply app_inv_head in Hhist'. injection Hhist' as ->.
    exists r. split; [exact Hrep|]. cbn. split; reflexivity.
  - unfold synced. rewrite Hupd, Hhist, length_app, Hsync. cbn. lia.
Qed.

Lemma run_batches_chain (adam_on : nat -> bool) (c_t : Z) (batches : list batch) :
  forall st : state A,
  good A dim st -> synced st ->
  exists st' snaps,
    batches_of adam_on c_t batches st = Some st'
    /\ history st' = history st ++ snaps
    /\ chain_from (sign_step_of step_size loss_grads c_t)
         (last (history st)) batches snaps
    /\ good A dim st' /\ synced st'.
Proof.
  induction batches as [|x rest IH]; intros st Hgood Hsync; cbn [run_batches].
  - exists st, []. rewrite app_nil_r. cbn. auto.
  - destruct (update_chain (adam_on (updates st)) c_t x st Hgood Hsync)
      as (st1 & s & Hup & Hhist1 & Hstep & Hgood1 & Hsync1).
    rewrite Hup.
    destruct (IH st1 Hgood1 Hsync1) as (st' & snaps & Hrun & Hhist' & Hchain & Hgood' & Hsync').
    exists st', (s :: snaps). split; [exact Hrun|].
    split; [rewrite Hhist', Hhist1, <- app_assoc; reflexivity|].
    split; [|now split].
    cbn [chain_from]. split.
    + destruct (last (history st)) as [prev|]; [now apply Hstep | exact I].
    + now rewrite Hhist1, last_snoc in Hchain.
Qed.

End Exact.

(** [t.repeat(3, 1, 1)] of a two-dimensional tensor. *)
Definition tile3 (t : tensor) : tensor :=
  mkTensor (3 :: shape t) (concat (repeat (data t) 3)).

Definition same_values (s s' : snapshot) : Prop :=
  mask_after s = mask_after s' /\ trigger_after s = trigger_after s'.

Lemma last_or_cons {A : Type} (prev : option A) (s : A) (ss : list A) :
  last_or prev (s :: ss) = last_or (Some s) ss.
Proof.
  unfold last_or. destruct ss as [|s' ss]; [reflexivity|].
  cbn [last]. destruct (last (s' :: ss)) eqn:E; [reflexivity|].
  apply last_None in E. discriminate.
Qed.

(** A chain of sign steps is determined by its batches and the tensors it
    starts from. *)
Lemma sign_chain_functional (step_size : Q)
  (loss_grads : tensor -> batch -> tensor -> tensor -> Z -> list Q * list Q)
  (c_t : Z) (xs : list batch) :
  forall (ss ss' : list snapshot) (p p' : snapshot),
  same_values p p' ->
  chain_from (sign_step_of step_size loss_grads c_t) (Some p) xs ss ->
  chain_from (sign_step_of step_size loss_grads c_t) (Some p') xs ss' ->
  exists l l', last_or (Some p) ss = Some l /\ last_or (Some p') ss' = Some l'
               /\ same_values l l'.
Proof.
  induction xs as [|x xs IH]; intros [|s ss] [|s' ss'] p p' Hsame H H';
    cbn in H, H'; try contradiction.
  - exists p, p'. auto.
  - destruct H as [Hstep H]. destruct H' as [Hstep' H'].
    assert (Hs : same_values s s').
    { destruct Hsame as [Hm Ht].
      destruct Hstep as (r & Hr & Hms & Hts). destruct Hstep' as (r' & Hr' & Hms' & Hts').
      rewrite <- Hm, Hr in Hr'. injection Hr' as <-.
      rewrite <- Hm, <- Ht in Hms', Hts'. split; congruence. }
    destruct (IH ss ss' s s' Hs H H') as (l & l' & Hl & Hl' & Hll).
    exists l, l'. rewrite !last_or_cons. auto.
Qed.

Section FirstUpdate.

Variable A : Type.
Variable adam_init : A.
Variable adam_update : A -> nat -> list Q -> list Q -> A * list Q.
Variable loss_grads : tensor -> batch -> tensor -> tensor -> Z -> list Q * list Q.
Variable rand : nat -> Q.
Variable set_to_none : bool.
Variable dim : nat * nat * nat * nat.
Variable step_size : Q.

Lemma zero_grad_idle (ps : list nat) (h : store) :
  (forall p o, p ∈ ps -> h !! p = Some o -> grad o = None) ->
  zero_grad set_to_none ps h = h.
Proof.
  induction ps as [|p ps IH]; intros Hnone; cbn [zero_grad foldr]; [reflexivity|].
  fold (zero_grad set_to_none ps h).
  rewrite IH by (intros q o Hq; apply Hnone; now right).
  apply alter_id. intros o Ho.
  pose proof (Hnone p o ltac:(now left) Ho) as Hg.
  destruct o as [v g]. cbn in *. subst g. now destruct set_to_none.
Qed.

(** The snapshot that the first update leaves on batch [x]: Adam moves the
    two initial tensors, then the sign step is taken from where Adam left
    them, along the gradient computed before Adam moved them. *)
Definition first_snapshot (c_t : Z) (x : batch) : snapshot :=
  let m0 := mask_init rand dim in
  let t0 := trigger_init rand dim in
  let exp_mask :=
    unsqueeze0 (mkTensor (channels x :: shape m0)
                  (concat (repeat (data m0) (channels x)))) in
  let g := loss_grads exp_mask x t0 m0 c_t in
  let am := adam_update adam_init 0 (data m0) (fst g) in
  let at_ := adam_update (fst am) 1 (data t0) (snd g) in
  mkSnapshot (shape exp_mask)
    (clamp01 (sub_sign step_size (mkTensor (shape m0) (snd am)) (fst g)))
    (clamp01 (sub_sign step_size (mkTensor (shape t0) (snd at_)) (snd g))).

Lemma first_update_exact (c_t : Z) (x : batch) :
  exists st',
    update A adam_update loss_grads set_to_none step_size true c_t x
      (init A adam_init rand dim) = Some st'
    /\ history st' = [first_snapshot c_t x].
Proof.
  unfold update, init. cbn [heap mask trigger params next adam updates history].
  set (h0 := <[1 := mkObj (trigger_init rand dim) None]>
               (<[0 := mkObj (mask_init rand dim) None]> (∅ : store))).
  assert (H0 : h0 !! 0 = Some (mkObj (mask_init rand dim) None)).
  { unfold h0. rewrite (lookup_insert_ne _ 1 0) by discriminate.
    apply lookup_insert_eq. }
  assert (H1 : h0 !! 1 = Some (mkObj (trigger_init rand dim) None)).
  { unfold h0. apply lookup_insert_eq. }
  rewrite H0. cbn [mbind option_bind]. rewrite H1. cbn [mbind option_bind val].
  assert (Hrep : repeat3d (channels x) (mask_init rand dim)
                 = Some (mkTensor (channels x :: shape (mask_init rand dim))
                           (concat (repeat (data (mask_init rand dim)) (channels x))))).
  { unfold repeat3d, mask_init. now destruct dim as [[[d0 d1] d2] d3]. }
  rewrite Hrep. cbn [mbind option_bind]. unfold first_snapshot.
  destruct (loss_grads _ _ _ _ _) as [g_mask g_trigger]. cbn [fst snd].
  rewrite zero_grad_idle.
  2:{ intros p o Hp Ho. apply elem_of_cons in Hp as [->|Hp].
      - rewrite H0 in Ho. now injection Ho as <-.
      - apply list_elem_of_singleton in Hp as ->.
        rewrite H1 in Ho. now injection Ho as <-. }
  set (h3 := backward_into 1 g_trigger (backward_into 0 g_mask h0)).
  assert (Hm3 : h3 !! 0 = Some (mkObj (mask_init rand dim) (Some g_mask))).
  { unfold h3, backward_into. rewrite lookup_alter_ne by discriminate.
    now rewrite lookup_alter_eq, H0. }
  assert (Ht3 : h3 !! 1 = Some (mkObj (trigger_init rand dim) (Some g_trigger))).
  { unfold h3, backward_into. rewrite lookup_alter_eq.
    rewrite lookup_alter_ne by discriminate. now rewrite H1. }
  cbn [optimizer_step]. rewrite Hm3. cbn [grad val].
  destruct (adam_update adam_init 0 _ g_mask) as [a1 dm]. cbn [fst snd].
  rewrite lookup_insert_ne by discriminate. rewrite Ht3. cbn [grad val].
  destruct (adam_update a1 1 _ g_trigger) as [a2 dt]. cbn [fst snd].
  rewrite (sign_step_and_clamp_exact step_size _ 0 2
             (mkTensor (shape (mask_init rand dim)) dm) g_mask)
    by (now rewrite lookup_insert_ne, lookup_insert_eq by discriminate).
  cbn [mbind option_bind].
  rewrite (sign_step_and_clamp_exact step_size _ 1 3
             (mkTensor (shape (trigger_init rand dim)) dt) g_trigger)
    by (now rewrite !lookup_insert_ne, lookup_insert_eq by discriminate).
  cbn [mbind option_bind].
  rewrite (lookup_insert_ne _ 3 2), (lookup_insert_ne _ 1 2) by discriminate.
  rewrite !lookup_insert_eq. cbn [mbind option_bind val].
  eexists. split; reflexivity.
Qed.

Section AnyPolicy.

Variable niters : nat.
Variable adam_on : nat -> bool.

Local Abbreviation optimize_of :=
  (optimize A adam_init adam_update loss_grads rand set_to_none dim step_size niters
     adam_on).
Local Abbreviation find_of :=
  (find_with A adam_init adam_update loss_grads rand set_to_none dim step_size niters
     adam_on).

(** What the call returns, from the snapshots of its run. *)
Definition final_of (h : list snapshot) : tensor * tensor :=
  match last h with
  | Some s => (tile3 (mask_after s), trigger_after s)
  | None => (tile3 (mask_init rand dim), trigger_init rand dim)
  end.

Lemma call_summary (c_t : Z) (data_loader : nat -> list batch) :
  exists st,
    optimize_of c_t data_loader = Some st
    /\ good A dim st
    /\ chain_from (sign_step_of step_size loss_grads c_t) None
         (all_batches data_loader 0 niters) (history st)
    /\ find_of c_t data_loader = Some (final_of (history st)).
Proof.
  unfold find_with, optimize. rewrite run_iters_flat.
  destruct (run_batches_chain A adam_update loss_grads set_to_none dim step_size
              adam_on c_t (all_batches data_loader 0 niters)
              (init A adam_init rand dim) (init_good A adam_init rand dim) eq_refl)
    as (st & snaps & Hrun & Hhist & Hchain & Hgood & _).
  exists st. rewrite Hrun. split; [reflexivity|]. split; [exact Hgood|].
  cbn [history init app last] in Hhist, Hchain. rewrite Hhist.
  split; [exact Hchain|]. cbn [mbind option_bind].
  pose proof Hgood as (((m & Hm & Hms) & (t & Ht & _) & _) & Htracked & _).
  rewrite Hm, Ht. cbn [mbind option_bind].
  assert (Hrep : repeat3d 3 (val m) = Some (tile3 (val m))).
  { unfold tile3, repeat3d. rewrite Hms. unfold mask_shape.
    now destruct dim as [[[d0 d1] d2] d3]. }
  rewrite Hrep. cbn [mbind option_bind]. unfold final_of. rewrite <- Hhist.
  destruct (last (history st)) as [s|] eqn:Hlast.
  - destruct (Htracked s Hlast) as [Hm' Ht'].
    rewrite Hm in Hm'. rewrite Ht in Ht'.
    injection Hm' as ->. injection Ht' as ->. reflexivity.
  - apply last_None in Hlast. rewrite Hlast in Hhist. symmetry in Hhist.
    destruct snaps; [|discriminate].
    destruct (all_batches data_loader 0 niters) eqn:Hall; [|contradiction].
    cbn [run_batches] in Hrun. injection Hrun as <-.
    unfold init in Hm, Ht. cbn [heap mask trigger] in Hm, Ht.
    rewrite lookup_insert_ne, lookup_insert_eq in Hm by discriminate.
    rewrite lookup_insert_eq in Ht.
    injection Hm as <-. injection Ht as <-. reflexivity.
Qed.

(** When the first update runs Adam, the first snapshot of a call is
    [first_snapshot] of its first batch. *)
Lemma call_first_snapshot (c_t : Z) (data_loader : nat -> list batch)
  (x : batch) (rest : list batch) :
  adam_on 0 = true ->
  all_batches data_loader 0 niters = x :: rest ->
  exists st ss,
    optimize_of c_t data_loader = Some st
    /\ history st = first_snapshot c_t x :: ss.
Proof.
  intros Hon Hall. unfold optimize. rewrite run_iters_flat, Hall.
  cbn [run_batches]. unfold init at 1. cbn [updates]. rewrite Hon.
  destruct (first_update_exact c_t x) as (st1 & Hup & Hhist1).
  fold (init A adam_init rand dim). rewrite Hup.
  destruct (update_chain A adam_update loss_grads set_to_none dim step_size
              true c_t x (init A adam_init rand dim)
              (init_good A adam_init rand dim) eq_refl)
    as (st1' & s & Hup' & _ & _ & Hgood1 & _).
  rewrite Hup in Hup'. injection Hup' as <-.
  destruct (run_batches_good A adam_update loss_grads set_to_none dim step_size
              adam_on c_t rest st1 Hgood1)
    as (st & snaps & Hrun & _ & Hhist & _).
  exists st, snaps. split; [exact Hrun|]. now rewrite Hhist, Hhist1.
Qed.

End AnyPolicy.

End FirstUpdate.

Lemma last_as_last_or {A : Type} (s : A) (ss : list A) :
  last (s :: ss) = last_or (Some s) ss.
Proof.
  unfold last_or. destruct ss as [|s' ss]; [reflexivity|].
  cbn [last]. destruct (last (s' :: ss)) eqn:E; [reflexivity|].
  apply last_None in E. discriminate.
Qed.






(** X13.  The call returns the same mask and trigger whether
    [optimizer.zero_grad()] sets the gradients to [None] or zeroes them in
    place. *)
Theorem result_does_not_depend_on_zero_grad_mode
  (A : Type) (adam_init : A)
  (adam_update : A -> nat -> list Q -> list Q -> A * list Q)
  (loss_grads : tensor -> batch -> tensor -> tensor -> Z -> list Q * list Q)
  (rand : nat -> Q) (dim : nat * nat * nat * nat)
  (step_size : Q) (niters : nat) (c_t : Z) (data_loader : nat -> list batch) :
  find_candidate_backdoor A adam_init adam_update loss_grads rand true dim
    step_size niters c_t data_loader
  = find_candidate_backdoor A adam_init adam_update loss_grads rand false dim
      step_size niters c_t data_loader.
Proof.
  unfold find_candidate_backdoor.
  destruct (call_summary A adam_init adam_update loss_grads rand true dim
              step_size niters (fun _ => true) c_t data_loader)
    as (st1 & Hrun1 & _ & Hchain1 & ->).
  destruct (call_summary A adam_init adam_update loss_grads rand false dim
              step_size niters (fun _ => true) c_t data_loader)
    as (st2 & Hrun2 & _ & Hchain2 & ->).
  f_equal.
  destruct (all_batches data_loader 0 niters) as [|x rest] eqn:Hall.
  - destruct (history st1); [|contradiction].
    destruct (history st2); [|contradiction]. reflexivity.
  - destruct (call_first_snapshot A adam_init adam_update loss_grads rand true dim
                step_size niters (fun _ => true) c_t data_loader x rest eq_refl Hall)
      as (st1' & ss1 & Hrun1' & Hh1).
    destruct (call_first_snapshot A adam_init adam_update loss_grads rand false dim
                step_size niters (fun _ => true) c_t data_loader x rest eq_refl Hall)
      as (st2' & ss2 & Hrun2' & Hh2).
    rewrite Hrun1 in Hrun1'. injection Hrun1' as <-.
    rewrite Hrun2 in Hrun2'. injection Hrun2' as <-.
    rewrite Hh1 in Hchain1 |- *. rewrite Hh2 in Hchain2 |- *.
    cbn [chain_from] in Hchain1, Hchain2.
    destruct Hchain1 as [_ Hchain1]. destruct Hchain2 as [_ Hchain2].
    destruct (sign_chain_functional step_size loss_grads c_t rest ss1 ss2 _ _
                (conj eq_refl eq_refl) Hchain1 Hchain2)
      as (l & l' & Hl & Hl' & Hm & Ht).
    unfold final_of. rewrite !last_as_last_or, Hl, Hl'. now rewrite Hm, Ht.
Qed.




End NeuralCleanse.
